(** * Super Bowl squares: the seeded generator, the shuffle and the cyclic fill

    A shallow embedding of the script of the page, which the repository
    holds in two revisions: [docs/app.js] fills the 100 squares and then
    shuffles them; the other one ([part_000]) shuffles the name list and
    then fills the squares from it, and adds the share link and the URL
    parameters. The generator, the shuffle, the parser of the names and the
    fill are the same text in both.

    JavaScript numbers that the program keeps integral are integers of [Z],
    with the 32-bit conversions written out; the values drawn from the
    generator are rationals of [Q]: a draw is [k / 2^32] with [k < 2^32],
    which a double holds exactly, and so is its product with [i + 1] as long
    as the array has fewer than [2^21] elements. *)

From Stdlib Require Import ZArith QArith Qround Lia Ascii String.
From stdpp Require Import base numbers list gmap strings pretty.

Local Open Scope Z_scope.

(** ** 32-bit integer operations of JavaScript *)

Module Int32.

Definition two32 : Z := 4294967296.
Definition two31 : Z := 2147483648.

(** [ToUint32]: the value modulo [2^32]. *)
Definition toUint32 (x : Z) : Z := x mod two32.

(** [ToInt32]: the value modulo [2^32], read as a signed number. *)
Definition toInt32 (x : Z) : Z :=
  let u := x mod two32 in
  if u <? two31 then u else u - two32.

(** [a | b] *)
Definition bitor (a b : Z) : Z := Z.lor (toInt32 a) (toInt32 b).

(** [a ^ b] *)
Definition bitxor (a b : Z) : Z := Z.lxor (toInt32 a) (toInt32 b).

(** [a >>> n], for a shift count below 32 *)
Definition ushr (a n : Z) : Z := Z.shiftr (toUint32 a) n.

(** [Math.imul(a, b)] *)
Definition imul (a b : Z) : Z := toInt32 (toInt32 a * toInt32 b).

End Int32.

(** ** The generator: [mulberry32] *)

(** The body of the closure that [mulberry32(seed)] returns, as a function
    of the captured variable [seed]: the value returned and the new value of
    [seed]. *)
Definition mulberry32_call (seed : Z) : Q * Z :=
  let seed := Int32.bitor seed 0 in
  let seed := Int32.bitor (seed + 0x6d2b79f5) 0 in
  let t := Int32.imul (Int32.bitxor seed (Int32.ushr seed 15)) (Int32.bitor 1 seed) in
  let t := Int32.bitxor (t + Int32.imul (Int32.bitxor t (Int32.ushr t 7)) (Int32.bitor 61 t)) t in
  (Int32.ushr (Int32.bitxor t (Int32.ushr t 14)) 0 # 4294967296, seed).

(** ** Closures

    Every call of [mulberry32] creates a closure with a variable [seed] of
    its own. The store maps each closure to the current value of that
    variable. *)

Definition mulberry32 (seed : Z) (h : gmap nat Z) : nat * gmap nat Z :=
  let g := fresh (dom h) in (g, <[g := seed]> h).

(** A call [g()] of the closure [g]. *)
Definition call (g : nat) (h : gmap nat Z) : Q * gmap nat Z :=
  let '(x, seed) := mulberry32_call (h !!! g) in (x, <[g := seed]> h).

(** The draws of a run in which the closure [g] is called once for every
    [true] of the schedule and the closure [g'] once for every [false]:
    the values each of them returned, in order, and the store at the end. *)
Fixpoint interleave (g g' : nat) (sched : list bool) (h : gmap nat Z)
  : list Q * list Q * gmap nat Z :=
  match sched with
  | [] => ([], [], h)
  | b :: sched =>
      let '(x, h) := call (if b then g else g') h in
      let '(xs, xs', h) := interleave g g' sched h in
      if b then (x :: xs, xs', h) else (xs, x :: xs', h)
  end.

(** The first [n] values of a generator whose variable holds [seed]. *)
Fixpoint draws (n : nat) (seed : Z) : list Q :=
  match n with
  | O => []
  | S n => (mulberry32_call seed).1 :: draws n (mulberry32_call seed).2
  end.

(** ** Arrays

    An array holds its elements, where [None] is [undefined] (a hole reads
    as [undefined] too), and the properties stored under numeric keys that
    are not array indices: negative ones and those from [2^32 - 1] on. *)

Record jsarray (A : Type) := JSArray {
  elems : list (option A);
  props : gmap Z (option A)
}.
Arguments JSArray {A} _ _.
Arguments elems {A} _.
Arguments props {A} _.

Section Arrays.
Context {A : Type}.

Definition is_index (j : Z) : bool := (0 <=? j) && (j <? 4294967295).

(** [new Array] from a list of values *)
Definition of_list (l : list A) : jsarray A := JSArray (Some <$> l) ∅.

(** [array.length] *)
Definition len (array : jsarray A) : Z := Z.of_nat (length (elems array)).

(** [array[j]] *)
Definition get (array : jsarray A) (j : Z) : option A :=
  if is_index j then mjoin (elems array !! Z.to_nat j)
  else mjoin (props array !! j).

(** [array[j] = v]: inside the array the element is replaced; beyond its
    end the array grows, with holes up to [j]; under a key that is not an
    index the value becomes a property and the elements stay. *)
Definition set (array : jsarray A) (j : Z) (v : option A) : jsarray A :=
  if is_index j then
    if j <? len array
    then JSArray (<[Z.to_nat j := v]> (elems array)) (props array)
    else JSArray (elems array ++ replicate (Z.to_nat (j - len array)) None ++ [v])
                 (props array)
  else JSArray (elems array) (<[j := v]> (props array)).

(** [[array[i], array[j]] = [array[j], array[i]]]: both reads, then the
    write at [i], then the write at [j]. *)
Definition swap (array : jsarray A) (i j : Z) : jsarray A :=
  let a := get array j in
  let b := get array i in
  set (set array i a) j b.

(** [array.push(v)] *)
Definition push (array : jsarray A) (v : option A) : jsarray A :=
  JSArray (elems array ++ [v]) (props array).

(** *** [shuffleArray] *)
Section Shuffle.
(** [rng] is any function with a state [G] of its own. *)
Context {G : Type} (rng : G → Q * G).

(** The loop from index [i] down to 1. The product [rng() * (i + 1)] and
    its floor are taken exactly, which is what the doubles give for the
    draws of [mulberry32] on arrays of fewer than [2^21] elements. *)
Fixpoint shuffle_from (i : nat) (array : jsarray A) (g : G) : jsarray A * G :=
  match i with
  | O => (array, g)
  | S i' =>
      let '(x, g) := rng g in
      let j := Qfloor (x * inject_Z (Z.of_nat i + 1)) in
      shuffle_from i' (swap array (Z.of_nat i) j) g
  end.

Definition shuffleArray (array : jsarray A) (g : G) : jsarray A * G :=
  shuffle_from (length (elems array) - 1) array g.
End Shuffle.

(** *** [fillSquares] *)

(** [names[i % names.length]]: the remainder by 0 is [NaN], and no
    property is ever stored under that key. *)
Definition cycle_get (names : jsarray A) (i : Z) : option A :=
  if len names =? 0 then None else get names (i `mod` len names).

(** The loop, with [count] iterations left from index [i]. *)
Fixpoint fill_from (count : nat) (i : Z) (names squares : jsarray A) : jsarray A :=
  match count with
  | O => squares
  | S count => fill_from count (i + 1) names (push squares (cycle_get names i))
  end.

Definition fillSquares (names : jsarray A) : jsarray A :=
  fill_from 100 0 names (JSArray [] ∅).

End Arrays.

(** ** Strings

    Strings are byte strings; the white space that [trim] and [parseInt]
    skip is the ASCII part of JavaScript's: tab, line feed, vertical tab,
    form feed, carriage return and space. *)

Local Open Scope string_scope.

(** The line feed, as a character and as a string. *)
Definition LF : ascii := "010"%char.
Definition newline : string := String LF "".

(** [s.split(sep)] for a separator of one character *)
Fixpoint split (sep : ascii) (s : string) : list string :=
  match s with
  | "" => [""]
  | String c s =>
      if decide (c = sep) then "" :: split sep s
      else match split sep s with
           | [] => [String c ""]
           | w :: ws => String c w :: ws
           end
  end.

(** [l.join(sep)] of an array of strings *)
Fixpoint join (sep : string) (l : list string) : string :=
  match l with
  | [] => ""
  | [w] => w
  | w :: ws => w +:+ sep +:+ join sep ws
  end.

Fixpoint trim_start (s : string) : string :=
  match s with
  | "" => ""
  | String c s' => if Ascii.is_space c then trim_start s' else s
  end.

(** [s.trim()] *)
Definition trim (s : string) : string :=
  String.rev (trim_start (String.rev (trim_start s))).

(** The value of the longest prefix of decimal digits, [None] without one. *)
Fixpoint digits (s : string) (acc : option Z) : option Z :=
  match s with
  | "" => acc
  | String c s =>
      match Ascii.is_nat c with
      | Some d => digits s (Some (10 * default 0 acc + Z.of_nat d)%Z)
      | None => acc
      end
  end.

(** [parseInt(s, 10)]; [None] is [NaN]. The value is the exact integer, which
    is what JavaScript returns up to [2^53]. *)
Definition parseInt (s : string) : option Z :=
  match trim_start s with
  | String "-" s => Z.opp <$> digits s None
  | String "+" s => digits s None
  | s => digits s None
  end.

(** [parseNames] *)
Definition parseNames (text : string) : jsarray string :=
  of_list (filter (λ s, 0 < String.length s)%nat (trim <$> split LF text)).

(** ** The page

    The elements that the handlers create, with the properties they set.
    A listener of a button keeps the variables of the handler it closes
    over. *)

Inductive listener :=
| PrintGrid
| CopyShareLink (names : jsarray string) (seed : Z) (colTeam rowTeam : string).

#[warnings="-register-all"]
Inductive element :=
| Element (tag : string) (attrs : list (string * string)) (textContent : string)
          (click : option listener) (children : list element).

(** [document.createElement(tag)] with its properties and text set *)
Definition el (tag : string) (attrs : list (string * string)) (text : string)
  : element := Element tag attrs text None [].

(** [document.createElement(tag)] with children appended *)
Definition box (tag : string) (children : list element) : element :=
  Element tag [] "" None children.

Record output_section := OutputSection {
  children : list element;
  hidden : bool
}.

Record page := Page {
  names_input : string;
  seed_input : string;
  col_team_input : string;
  row_team_input : string;
  grid_output : output_section
}.

(** The text of the [small] element about the distribution of the names. *)
Definition info_text (names : jsarray string) : string :=
  if (len names =? 100)%Z then "100 names — each appears exactly once."
  else
    let perName := (100 `div` len names)%Z in
    let extra := (100 `mod` len names)%Z in
    if (extra =? 0)%Z
    then pretty (len names) +:+ " names × " +:+ pretty perName +:+ " squares each."
    else pretty (len names) +:+ " names — some appear " +:+ pretty perName +:+
         " times, others " +:+ pretty (perName + 1)%Z +:+ " times.".

(** The header cells of the digits 0 to 9. *)
Definition digit_headers : list element :=
  (λ col : nat, el "th" [("scope", "col")] (pretty col)) <$> seq 0 10.

(** The ten cells of the row [row]; an [undefined] square shows as no text. *)
Definition name_cells (squares : jsarray string) (row : nat) : list element :=
  (λ c : nat, el "td" [] (default "" (get squares (Z.of_nat row * 10 + Z.of_nat c))))
    <$> seq 0 10.

(** ** The revision that fills and then shuffles: [src/docs/app.js] *)

Module AppV1.

(** [buildTable] *)
Definition buildTable (squares : jsarray string) (colTeam rowTeam : string)
  : element :=
  let labelHead :=
    if decide (colTeam = "") then []
    else [box "thead"
            [box "tr" [el "th" [("colSpan", "11"); ("className", "team-label")] colTeam]]] in
  let thead := box "thead" [box "tr" (el "th" [] rowTeam :: digit_headers)] in
  let tbody :=
    box "tbody"
      ((λ row : nat,
          box "tr" (el "th" [("scope", "row")] (pretty row) :: name_cells squares row))
         <$> seq 0 10) in
  box "table" (labelHead ++ [thead; tbody]).

(** Lines 135 to 137 of the handler: the squares are filled from the names
    as entered, and the array of the 100 squares is shuffled in place. *)
Definition generate (names : jsarray string) (seed : Z) : jsarray string :=
  let filled := fillSquares names in
  let '(rng, h) := mulberry32 seed ∅ in
  let '(filled, h) := shuffleArray (call rng) filled h in
  filled.

(** The listener of [submit]: the message of the alert, if any, and the
    page afterwards. *)
Definition submit (p : page) : option string * page :=
  let namesText := names_input p in
  let seed := parseInt (seed_input p) in
  let colTeam := trim (col_team_input p) in
  let rowTeam := trim (row_team_input p) in
  let names := parseNames namesText in
  if (len names =? 0)%Z then
    (Some "Please enter at least one name.", p)
  else if (100 <? len names)%Z then
    (Some "Too many names — the grid has exactly 100 squares. Please enter 100 or fewer names.", p)
  else match seed with
  | None => (Some "Please enter a valid number for the random seed.", p)
  | Some seed =>
      let filled := generate names seed in
      let info := el "small" [("id", "grid-info")] (info_text names) in
      (None,
       Page (names_input p) (seed_input p) (col_team_input p) (row_team_input p)
         (OutputSection [info; buildTable filled colTeam rowTeam] false))
  end.

End AppV1.

(** ** The revision that shuffles and then fills: [src/unnamed/part_000] *)

Module AppV2.

(** [buildTable] *)
Definition buildTable (squares : jsarray string) (colTeam rowTeam : string)
  : element :=
  let hasRowTeam := bool_decide (rowTeam ≠ "") in
  let spacer := if hasRowTeam then [el "th" [] ""] else [] in
  let labelHead :=
    if decide (colTeam = "") then []
    else [box "thead"
            [box "tr"
               (spacer ++ [el "th" [("colSpan", "11"); ("className", "team-label")] colTeam])]] in
  let thead := box "thead" [box "tr" (spacer ++ el "th" [] "" :: digit_headers)] in
  let tbody :=
    box "tbody"
      ((λ row : nat,
          let rowTeamCell :=
            if bool_decide (row = 0%nat) && hasRowTeam
            then [el "th" [("rowSpan", "10"); ("className", "row-team-label")] rowTeam]
            else [] in
          box "tr" (rowTeamCell ++ el "th" [("scope", "row")] (pretty row)
                      :: name_cells squares row))
         <$> seq 0 10) in
  box "table" (labelHead ++ [thead; tbody]).

(** Lines 160 to 162 of the handler: the array [names] is shuffled in
    place, and the squares are filled from it. Returned are [names], the
    same array that the handler parsed and now in shuffled order, and the
    squares. *)
Definition generate (names : jsarray string) (seed : Z)
  : jsarray string * jsarray string :=
  let '(rng, h) := mulberry32 seed ∅ in
  let '(names, h) := shuffleArray (call rng) names h in
  let filled := fillSquares names in
  (names, filled).

(** The squares alone. *)
Definition assign (names : jsarray string) (seed : Z) : jsarray string :=
  (generate names seed).2.

(** The listener of [submit]: the message of the alert, if any, and the
    page afterwards. The listener of the share button closes over the
    variables [names], [seed], [colTeam] and [rowTeam] of this call. *)
Definition submit (p : page) : option string * page :=
  let namesText := names_input p in
  let seed := parseInt (seed_input p) in
  let colTeam := trim (col_team_input p) in
  let rowTeam := trim (row_team_input p) in
  let names := parseNames namesText in
  if (len names =? 0)%Z then
    (Some "Please enter at least one name.", p)
  else if (100 <? len names)%Z then
    (Some "Too many names — the grid has exactly 100 squares. Please enter 100 or fewer names.", p)
  else match seed with
  | None => (Some "Please enter a valid number for the random seed.", p)
  | Some seed =>
      let '(names, filled) := generate names seed in
      let info := el "small" [("id", "grid-info")] (info_text names) in
      let printBtn :=
        Element "button" [("className", "print-btn")] "Print Grid" (Some PrintGrid) [] in
      let shareBtn :=
        Element "button" [("className", "share-btn secondary")] "Copy Share Link"
          (Some (CopyShareLink names seed colTeam rowTeam)) [] in
      (None,
       Page (names_input p) (seed_input p) (col_team_input p) (row_team_input p)
         (OutputSection [info; buildTable filled colTeam rowTeam; printBtn; shareBtn]
            false))
  end.

(** *** The share link

    A query string is the list of its pairs of key and value, in order:
    [URLSearchParams] reads back the pairs it has written. *)

(** The listener of the share button: the parameters of the link that it
    copies. The seed is printed in decimal, as JavaScript prints an integer
    below [10^21]. *)
Definition share (l : listener) : list (string * string) :=
  match l with
  | PrintGrid => []
  | CopyShareLink names seed colTeam rowTeam =>
      [("names", join "," (default "" <$> elems names)); ("seed", pretty seed)]
      ++ (if decide (colTeam = "") then [] else [("colTeam", colTeam)])
      ++ (if decide (rowTeam = "") then [] else [("rowTeam", rowTeam)])
  end.

(** [params.get(key)]: the first value under the key; [params.has(key)]
    is whether there is one. *)
Fixpoint param (key : string) (params : list (string * string)) : option string :=
  match params with
  | [] => None
  | (k, v) :: params => if decide (k = key) then Some v else param key params
  end.

(** Lines 223 to 242: the inputs are filled from the parameters of the
    address, and with a parameter [names] the form is submitted. *)
Definition open (params : list (string * string)) (p : page) : option string * page :=
  let p := match param "names" params with
           | Some v => Page (join newline (split "," v)) (seed_input p)
                         (col_team_input p) (row_team_input p) (grid_output p)
           | None => p
           end in
  let p := match param "seed" params with
           | Some v => Page (names_input p) v (col_team_input p) (row_team_input p)
                         (grid_output p)
           | None => p
           end in
  let p := match param "colTeam" params with
           | Some v => Page (names_input p) (seed_input p) v (row_team_input p)
                         (grid_output p)
           | None => p
           end in
  let p := match param "rowTeam" params with
           | Some v => Page (names_input p) (seed_input p) (col_team_input p) v
                         (grid_output p)
           | None => p
           end in
  match param "names" params with
  | Some _ => submit p
  | None => (None, p)
  end.

(** The listener of the share button on a page, if it shows a grid. *)
Definition share_button (p : page) : option listener :=
  match children (grid_output p) with
  | [_; _; _; Element _ _ _ click _] => click
  | _ => None
  end.

(** The table of the grid on a page, if it shows one. *)
Definition grid_table (p : page) : option element :=
  match children (grid_output p) with
  | _ :: table :: _ => Some table
  | _ => None
  end.

End AppV2.

Local Close Scope string_scope.

(** ** The assignment as the specification words it

    The permutation step swaps the elements at [i] and [j] for [i] from
    [length - 1] down to 1, with [j = floor(rng.next() * (i + 1))]; the
    cyclic fill takes [output[k] = permuted[k mod len(permuted)]] for [k]
    from 0 to 99. Here a sequence is a list, and a swap is a swap of two of
    its positions. *)

Module Spec.
Section Assign.
Context {A G : Type} (next : G → Q * G).

Definition swap (l : list A) (i j : nat) : list A :=
  match l !! i, l !! j with
  | Some a, Some b => <[j := a]> (<[i := b]> l)
  | _, _ => l
  end.

Fixpoint permute_from (i : nat) (l : list A) (g : G) : list A :=
  match i with
  | O => l
  | S i' =>
      let j := Z.to_nat (Qfloor ((next g).1 * inject_Z (Z.of_nat i + 1))) in
      permute_from i' (swap l i j) (next g).2
  end.

Definition permute (l : list A) (g : G) : list A :=
  permute_from (length l - 1) l g.

Definition cyclic_fill (permuted : list A) : list (option A) :=
  (λ k : nat, permuted !! (k `mod` length permuted)%nat) <$> seq 0 100.

Definition assign (names : list A) (g : G) : list (option A) :=
  cyclic_fill (permute names g).
End Assign.
End Spec.

(** ** The distribution of the names over the squares *)

(** The number of squares that hold the name [x]. *)
Definition occurrences (x : string) (out : list (option string)) : nat :=
  length (filter (λ y, y = Some x) out).

(** [ceil(a / b)] *)
Definition div_ceil (a b : nat) : nat :=
  (a `div` b + if decide (a `mod` b = 0) then 0 else 1)%nat.

(** Every name between [floor(100/n)] and [ceil(100/n)] times, the names
    that appear [high] times counted as [100 mod n], and every name once
    when there are 100. *)
Definition distributed (high : nat) (names : list string)
    (out : list (option string)) : Prop :=
  let n := length names in
  Forall (λ x, 100 `div` n ≤ occurrences x out ≤ div_ceil 100 n)%nat names
  ∧ length (filter (λ x, occurrences x out = high) names) = (100 `mod` n)%nat
  ∧ (n = 100%nat → Forall (λ x, occurrences x out = 1%nat) names).

(** The distribution with the higher count taken as [ceil(100/n)]. *)
Definition distributed_ceil (names : list string) (out : list (option string)) : Prop :=
  distributed (div_ceil 100 (length names)) names out.

(** The distribution with the higher count taken as [floor(100/n) + 1]. *)
Definition distributed_succ (names : list string) (out : list (option string)) : Prop :=
  distributed (100 `div` length names + 1) names out.

(** The states of a generator after [n] calls. *)
Definition advance (n : nat) (seed : Z) : Z :=
  Nat.iter n (λ s, (mulberry32_call s).2) seed.

(** The first [m] squares of the cyclic fill. *)
Definition cycle {A} (l : list A) (m : nat) : list (option A) :=
  (λ k : nat, l !! (k `mod` length l)%nat) <$> seq 0 m.

(** The inputs that the handlers accept: 1 to 100 names and a seed that
    [parseInt] reads as a number. *)
Definition accepted (p : page) : Prop :=
  (1 ≤ len (parseNames (names_input p)) ≤ 100)%Z
  ∧ is_Some (parseInt (seed_input p)).

(** A page with names and a seed entered, and no grid yet. *)
Definition entered (names : list string) (seed : string) : page :=
  Page (join newline names) seed "" "" (OutputSection [] true).

(** A page as it loads: empty inputs and no grid. *)
Definition blank : page := Page "" "" "" "" (OutputSection [] true).

(** The page that opens the link which the share button of the page [p],
    once submitted, copies. *)
Definition reopened (p : page) : page :=
  let shown := (AppV2.submit p).2 in
  let link := default [] (AppV2.share <$> AppV2.share_button shown) in
  (AppV2.open link blank).2.

(** ** Notions for the properties of the strings and of the page *)

(** Whether the character [c] occurs in [s]. *)
Fixpoint contains (c : ascii) (s : string) : bool :=
  match s with
  | EmptyString => false
  | String a s => bool_decide (a = c) || contains c s
  end.

(** Whether [s] consists of white space only. *)
Fixpoint all_space (s : string) : bool :=
  match s with
  | EmptyString => true
  | String a s => Ascii.is_space a && all_space s
  end.

(** Whether [s] does not start with white space. *)
Definition starts_clean (s : string) : Prop :=
  match s with
  | EmptyString => True
  | String a _ => Ascii.is_space a = false
  end.

(** Whether [s] does not start with a decimal digit. *)
Definition no_digit_ahead (s : string) : Prop :=
  match s with
  | EmptyString => True
  | String a _ => Ascii.is_nat a = None
  end.

(** [s] with every character [c] replaced by [d]. *)
Fixpoint replace_char (c d : ascii) (s : string) : string :=
  match s with
  | EmptyString => EmptyString
  | String a s => String (if decide (a = c) then d else a) (replace_char c d s)
  end.

(** A name as [parseNames] returns it: not empty, trimmed, on one line. *)
Definition clean_name (s : string) : Prop :=
  s ≠ EmptyString ∧ trim s = s ∧ contains LF s = false.

(** The texts of the [td] cells of an element, in the order of the
    document. *)
Fixpoint td_texts (e : element) : list string :=
  match e with
  | Element tag _ text _ children =>
      (if decide (tag = "td"%string) then [text] else [])
        ++ concat (map td_texts children)
  end.

(** The number of elements with the tag [t] in an element. *)
Fixpoint count_tag (t : string) (e : element) : nat :=
  match e with
  | Element tag _ _ _ children =>
      ((if decide (tag = t) then 1 else 0)
       + list_sum (map (count_tag t) children))%nat
  end.

(** ** Properties of the 32-bit operations *)

Section Int32Facts.
Import Int32.

Lemma toUint32_range x : (0 ≤ toUint32 x < 4294967296)%Z.
Proof. unfold toUint32, two32. apply Z.mod_pos_bound. lia. Qed.

Lemma toInt32_range x : (-2147483648 ≤ toInt32 x < 2147483648)%Z.
Proof.
  unfold toInt32, two32, two31.
  pose proof (Z.mod_pos_bound x 4294967296 eq_refl).
  destruct (Z.ltb_spec (x `mod` 4294967296) 2147483648); lia.
Qed.

Lemma toInt32_congr x y :
  (x `mod` 4294967296 = y `mod` 4294967296)%Z → toInt32 x = toInt32 y.
Proof. unfold toInt32, two32. by intros ->. Qed.

Lemma bitor_0_r x : bitor x 0 = toInt32 x.
Proof. unfold bitor. change (toInt32 0) with 0%Z. apply Z.lor_0_r. Qed.

Lemma ushr_0_r x : ushr x 0 = toUint32 x.
Proof. unfold ushr. apply Z.shiftr_0_r. Qed.
End Int32Facts.

(** ** Properties of the generator *)

Lemma mulberry32_call_congr seed seed' :
  (seed `mod` 4294967296 = seed' `mod` 4294967296)%Z →
  mulberry32_call seed = mulberry32_call seed'.
Proof.
  intros H. unfold mulberry32_call.
  rewrite !bitor_0_r. by rewrite (toInt32_congr _ _ H).
Qed.

Lemma mulberry32_call_num seed :
  ∃ k : Z, (0 ≤ k < 4294967296)%Z ∧ (mulberry32_call seed).1 = (k # 4294967296).
Proof.
  unfold mulberry32_call; cbv zeta; simpl fst.
  rewrite ushr_0_r. eexists; split; [apply toUint32_range | reflexivity].
Qed.

Lemma mulberry32_call_range seed :
  (0 <= (mulberry32_call seed).1)%Q ∧ ((mulberry32_call seed).1 < 1)%Q.
Proof.
  destruct (mulberry32_call_num seed) as (k & Hk & ->).
  unfold Qle, Qlt; simpl. lia.
Qed.

Arguments mulberry32_call : simpl never.

Lemma draws_congr n seed seed' :
  (seed `mod` 4294967296 = seed' `mod` 4294967296)%Z → draws n seed = draws n seed'.
Proof.
  intros H. destruct n as [|n]; [done|].
  cbn [draws]. by rewrite (mulberry32_call_congr _ _ H).
Qed.

(** ** Properties of the closures *)

Lemma call_fst g h : (call g h).1 = (mulberry32_call (h !!! g)).1.
Proof. unfold call. by destruct (mulberry32_call (h !!! g)). Qed.

Lemma call_snd g h : (call g h).2 = <[g := (mulberry32_call (h !!! g)).2]> h.
Proof. unfold call. by destruct (mulberry32_call (h !!! g)). Qed.

Lemma call_own g h : (call g h).2 !!! g = (mulberry32_call (h !!! g)).2.
Proof. rewrite call_snd. apply lookup_total_insert_eq. Qed.

Lemma call_frame g g' h : g ≠ g' → (call g h).2 !! g' = h !! g'.
Proof. intros Hne. rewrite call_snd. by apply lookup_insert_ne. Qed.

Lemma call_frame_total g g' h : g ≠ g' → (call g h).2 !!! g' = h !!! g'.
Proof. intros Hne. rewrite call_snd. by apply lookup_total_insert_ne. Qed.

Lemma mulberry32_fresh seed h : (mulberry32 seed h).1 ∉ dom h.
Proof. unfold mulberry32; simpl. apply is_fresh. Qed.

Lemma mulberry32_own seed h :
  (mulberry32 seed h).2 !!! (mulberry32 seed h).1 = seed.
Proof. unfold mulberry32; simpl. apply lookup_total_insert_eq. Qed.

Lemma mulberry32_frame seed h g :
  g ∈ dom h → (mulberry32 seed h).2 !! g = h !! g.
Proof.
  intros Hg. unfold mulberry32; simpl. apply lookup_insert_ne.
  intros <-. by apply (is_fresh (dom h)).
Qed.

Lemma interleave_draws g g' sched h :
  g ≠ g' →
  (interleave g g' sched h).1.1
    = draws (length (filter (λ b, b = true) sched)) (h !!! g)
  ∧ (interleave g g' sched h).1.2
    = draws (length (filter (λ b, b = false) sched)) (h !!! g').
Proof.
  intros Hne. revert h. induction sched as [|b sched IH]; intros h; [done|].
  cbn [interleave].
  destruct (call (if b then g else g') h) as [x h'] eqn:Hcall.
  assert (Hx : x = (call (if b then g else g') h).1) by by rewrite Hcall.
  assert (Hh : h' = (call (if b then g else g') h).2) by by rewrite Hcall.
  specialize (IH h').
  destruct (interleave g g' sched h') as [[xs xs'] h''].
  destruct IH as [IH1 IH2]. simpl in IH1, IH2.
  destruct b; simpl; rewrite !filter_cons;
    repeat case_decide; try done; cbn [length draws];
    rewrite IH1, IH2, Hx, Hh, call_fst, call_own, call_frame_total by done;
    done.
Qed.

(** ** Properties of the shuffle *)

Lemma floor_scaled_range (x : Q) (m : Z) :
  (0 <= x)%Q → (x < 1)%Q → (0 < m)%Z → (0 ≤ Qfloor (x * inject_Z m) < m)%Z.
Proof.
  intros H0 H1 Hm.
  assert (Hm' : (0 < inject_Z m)%Q) by (change 0%Q with (inject_Z 0); by rewrite <- Zlt_Qlt).
  split.
  - change 0%Z with (Qfloor 0). apply Qfloor_resp_le.
    apply Qmult_le_0_compat; [done | by apply Qlt_le_weak].
  - rewrite Zlt_Qlt.
    eapply Qle_lt_trans; [apply Qfloor_le|].
    rewrite <- (Qmult_1_l (inject_Z m)) at 2.
    by apply Qmult_lt_compat_r.
Qed.

Section SpecFacts.
Context {A G : Type} (next : G → Q * G).

Lemma spec_swap_length (l : list A) i j : length (Spec.swap l i j) = length l.
Proof.
  unfold Spec.swap. destruct (l !! i), (l !! j); [|done..].
  by rewrite !length_insert.
Qed.

Lemma spec_swap_perm (l : list A) i j : Spec.swap l i j ≡ₚ l.
Proof.
  unfold Spec.swap.
  destruct (l !! i) as [a|] eqn:Hi; [|done].
  destruct (l !! j) as [b|] eqn:Hj; [|done].
  by apply Permutation_insert_swap.
Qed.

Lemma spec_permute_from_length i (l : list A) g :
  length (Spec.permute_from next i l g) = length l.
Proof.
  revert l g. induction i as [|i IH]; intros l g; [done|].
  cbn [Spec.permute_from]. by rewrite IH, spec_swap_length.
Qed.

Lemma spec_permute_from_perm i (l : list A) g :
  Spec.permute_from next i l g ≡ₚ l.
Proof.
  revert l g. induction i as [|i IH]; intros l g; [done|].
  cbn [Spec.permute_from]. by rewrite IH, spec_swap_perm.
Qed.

Lemma spec_swap_fmap {B} (f : A → B) (l : list A) i j :
  f <$> Spec.swap l i j = Spec.swap (f <$> l) i j.
Proof.
  unfold Spec.swap. rewrite !list_lookup_fmap.
  destruct (l !! i), (l !! j); simpl; [|done..].
  by rewrite !list_fmap_insert.
Qed.
End SpecFacts.

Lemma spec_permute_from_fmap {A B G} (next : G → Q * G) (f : A → B) i (l : list A) g :
  f <$> Spec.permute_from next i l g = Spec.permute_from next i (f <$> l) g.
Proof.
  revert l g. induction i as [|i IH]; intros l g; [done|].
  cbn [Spec.permute_from]. by rewrite IH, spec_swap_fmap.
Qed.

Section ShuffleFacts.
Context {A G : Type} (rng : G → Q * G).

Lemma get_elem (array : jsarray A) (j : nat) :
  (Z.of_nat j < 4294967295)%Z → get array (Z.of_nat j) = mjoin (elems array !! j).
Proof.
  intros Hj. unfold get, is_index.
  rewrite (proj2 (Z.leb_le _ _)), (proj2 (Z.ltb_lt _ _)) by lia.
  by rewrite Nat2Z.id.
Qed.

Lemma set_elem (array : jsarray A) (j : nat) v :
  (j < length (elems array))%nat → (len array ≤ 4294967295)%Z →
  set array (Z.of_nat j) v = JSArray (<[j := v]> (elems array)) (props array).
Proof.
  unfold set, is_index, len. intros Hj Hlen.
  rewrite (proj2 (Z.leb_le _ _)), !(proj2 (Z.ltb_lt _ _)) by lia.
  by rewrite Nat2Z.id.
Qed.

(** Inside the array the swap of the code is the swap of two positions. *)
Lemma swap_in_range (array : jsarray A) (i j : nat) :
  (j ≤ i < length (elems array))%nat → (len array ≤ 4294967295)%Z →
  swap array (Z.of_nat i) (Z.of_nat j)
    = JSArray (Spec.swap (elems array) i j) (props array).
Proof.
  unfold len. intros Hij Hlen. unfold swap.
  rewrite !get_elem by lia.
  rewrite (set_elem _ i) by (unfold len; lia).
  rewrite set_elem by (unfold len; simpl; rewrite length_insert; lia).
  simpl. unfold Spec.swap.
  destruct (lookup_lt_is_Some_2 (elems array) i) as [a ->]; [lia|].
  destruct (lookup_lt_is_Some_2 (elems array) j) as [b ->]; [lia|].
  done.
Qed.

(** The generator is called once per iteration, whatever it returns. *)
Lemma shuffle_from_state i (array : jsarray A) g :
  (shuffle_from rng i array g).2 = Nat.iter i (λ g, (rng g).2) g.
Proof.
  revert array g. induction i as [|i IH]; intros array g; [done|].
  cbn [shuffle_from]. destruct (rng g) as [x g'] eqn:Hg.
  rewrite IH, Nat.iter_succ_r. by rewrite Hg.
Qed.

(** With draws in [0, 1) the loop is the permutation step of the
    specification on the elements, and leaves the properties alone. *)
Lemma shuffle_from_in_range i (array : jsarray A) g :
  (∀ g, (0 <= (rng g).1)%Q ∧ ((rng g).1 < 1)%Q) →
  (i < length (elems array))%nat → (len array ≤ 4294967295)%Z →
  (shuffle_from rng i array g).1
    = JSArray (Spec.permute_from rng i (elems array) g) (props array).
Proof.
  intros Hrange. revert array g.
  induction i as [|i IH]; intros array g Hi Hlen; [by destruct array|].
  cbn [shuffle_from Spec.permute_from].
  destruct (Hrange g) as [H0 H1].
  destruct (rng g) as [x g'] eqn:Hg. simpl in H0, H1. cbn [fst snd].
  pose proof (floor_scaled_range x (Z.of_nat (S i) + 1) H0 H1 ltac:(lia)) as Hj.
  set (j := Qfloor (x * inject_Z (Z.of_nat (S i) + 1))) in *.
  rewrite <- (Z2Nat.id j) at 1 by lia.
  rewrite swap_in_range by lia.
  rewrite IH by (unfold len in *; simpl; rewrite spec_swap_length; lia).
  done.
Qed.
End ShuffleFacts.

(** The shuffle with a closure of [mulberry32] in the store is the shuffle
    with the closure's body on the variable that the closure holds. *)
Lemma shuffle_from_call {A} g i (array : jsarray A) h :
  (shuffle_from (call g) i array h).1
    = (shuffle_from mulberry32_call i array (h !!! g)).1.
Proof.
  revert array h. induction i as [|i IH]; intros array h; [done|].
  cbn [shuffle_from].
  pose proof (call_fst g h) as H1. pose proof (call_own g h) as H2.
  destruct (call g h) as [x h'], (mulberry32_call (h !!! g)) as [x' s'].
  simpl in H1, H2. subst. apply IH.
Qed.

(** ** Properties of the fill *)

Section FillFacts.
Context {A : Type}.

Lemma fill_from_elems count i (names squares : jsarray A) :
  elems (fill_from count i names squares)
    = elems squares
        ++ ((λ k : nat, cycle_get names (i + Z.of_nat k)) <$> seq 0 count).
Proof.
  revert i squares. induction count as [|count IH]; intros i squares.
  { simpl. by rewrite app_nil_r. }
  cbn [fill_from]. rewrite IH. cbn [push elems seq fmap list_fmap].
  rewrite <- app_assoc. cbn [app]. rewrite Z.add_0_r.
  do 2 f_equal. rewrite <- fmap_S_seq, <- list_fmap_compose.
  apply list_fmap_ext. intros _ k _. simpl. f_equal. lia.
Qed.

Lemma fill_from_props count i (names squares : jsarray A) :
  props (fill_from count i names squares) = props squares.
Proof.
  revert i squares. induction count as [|count IH]; intros i squares; [done|].
  cbn [fill_from]. by rewrite IH.
Qed.

Lemma fillSquares_elems (names : jsarray A) :
  elems (fillSquares names)
    = (λ k : nat, cycle_get names (Z.of_nat k)) <$> seq 0 100.
Proof. unfold fillSquares. by rewrite fill_from_elems. Qed.

Lemma fillSquares_length (names : jsarray A) :
  length (elems (fillSquares names)) = 100%nat.
Proof. by rewrite fillSquares_elems, length_fmap, length_seq. Qed.

Lemma fillSquares_props (names : jsarray A) : props (fillSquares names) = ∅.
Proof. unfold fillSquares. by rewrite fill_from_props. Qed.

(** The fill from an array without holes is the cyclic fill of the
    specification. *)
Lemma fillSquares_spec (l : list A) m :
  (0 < length l)%nat → (Z.of_nat (length l) ≤ 4294967295)%Z →
  elems (fillSquares (JSArray (Some <$> l) m)) = Spec.cyclic_fill l.
Proof.
  intros Hpos Hlen. rewrite fillSquares_elems. unfold Spec.cyclic_fill.
  apply list_fmap_ext. intros _ k _.
  unfold cycle_get, len. cbn [elems]. rewrite length_fmap.
  rewrite (proj2 (Z.eqb_neq _ _)) by lia.
  rewrite <- Nat2Z.inj_mod.
  pose proof (Nat.mod_upper_bound k (length l) ltac:(lia)).
  rewrite get_elem by lia. cbn [elems].
  rewrite list_lookup_fmap. by destruct (l !! _).
Qed.
End FillFacts.

Section CycleFacts.
Context {A : Type}.
Implicit Types l : list A.

Lemma cyclic_fill_cycle l : Spec.cyclic_fill l = cycle l 100.
Proof. done. Qed.

Lemma cycle_take l m : (m ≤ length l)%nat → cycle l m = Some <$> take m l.
Proof.
  intros Hm. apply list_eq; intros i. unfold cycle.
  rewrite !list_lookup_fmap.
  destruct (decide (i < m)%nat) as [Hi|Hi].
  - rewrite lookup_seq_lt, lookup_take_lt by done. simpl.
    rewrite Nat.mod_small by lia.
    by destruct (lookup_lt_is_Some_2 l i ltac:(lia)) as [x ->].
  - by rewrite lookup_seq_ge, lookup_take_ge by lia.
Qed.

Lemma cycle_add l m :
  (0 < length l)%nat → cycle l (length l + m) = (Some <$> l) ++ cycle l m.
Proof.
  intros Hpos. unfold cycle at 1. rewrite seq_app, fmap_app.
  f_equal.
  - fold (cycle l (length l)). rewrite cycle_take by done.
    by rewrite firstn_all.
  - rewrite <- (Nat.add_0_r (0 + length l)), <- fmap_add_seq.
    rewrite <- list_fmap_compose. apply list_fmap_ext. intros _ k _. simpl.
    f_equal. rewrite <- Nat.Div0.add_mod_idemp_l, Nat.Div0.mod_same.
    done.
Qed.

Lemma cycle_rounds l q r :
  (0 < length l)%nat → (r ≤ length l)%nat →
  cycle l (q * length l + r)
    = mjoin (replicate q (Some <$> l)) ++ (Some <$> take r l).
Proof.
  intros Hpos Hr. induction q as [|q IH]; simpl.
  - by apply cycle_take.
  - rewrite <- Nat.add_assoc, cycle_add, IH by done. by rewrite app_assoc.
Qed.
End CycleFacts.

(** ** Counting the squares of a name *)

Lemma length_filter_all {B} (P : B → Prop) `{∀ x, Decision (P x)} (l : list B) :
  Forall P l → length (filter P l) = length l.
Proof.
  induction 1 as [|x l Hx _ IH]; [done|].
  rewrite filter_cons_True by done. simpl. by rewrite IH.
Qed.

Lemma length_filter_none {B} (P : B → Prop) `{∀ x, Decision (P x)} (l : list B) :
  Forall (λ x, ¬ P x) l → length (filter P l) = 0%nat.
Proof.
  induction 1 as [|x l Hx _ IH]; [done|].
  by rewrite filter_cons_False.
Qed.

Section Counting.
Implicit Types (x : string) (l p : list string) (out : list (option string)).

Lemma occurrences_app x out1 out2 :
  occurrences x (out1 ++ out2) = (occurrences x out1 + occurrences x out2)%nat.
Proof. unfold occurrences. by rewrite filter_app, length_app. Qed.

Lemma occurrences_perm x out1 out2 :
  out1 ≡ₚ out2 → occurrences x out1 = occurrences x out2.
Proof. unfold occurrences. by intros ->. Qed.

Lemma occurrences_rounds x q out :
  occurrences x (mjoin (replicate q out)) = (q * occurrences x out)%nat.
Proof.
  induction q as [|q IH]; [done|].
  simpl. by rewrite occurrences_app, IH.
Qed.

Lemma occurrences_absent x l : x ∉ l → occurrences x (Some <$> l) = 0%nat.
Proof.
  intros Hx. apply length_filter_none, Forall_forall.
  intros y [z [-> Hz]]%list_elem_of_fmap [= ->]. done.
Qed.

Lemma occurrences_nodup x l :
  NoDup l → x ∈ l → occurrences x (Some <$> l) = 1%nat.
Proof.
  induction 1 as [|y l Hy Hl IH]; [by intros ?%elem_of_nil|].
  intros Hx. rewrite fmap_cons. change (Some y :: (Some <$> l)) with ([Some y] ++ (Some <$> l)).
  rewrite occurrences_app.
  destruct (decide (x = y)) as [->|Hne].
  - rewrite (occurrences_absent y l) by done.
    unfold occurrences. by rewrite filter_cons_True.
  - apply elem_of_cons in Hx as [?|Hx]; [done|]. rewrite IH by done.
    unfold occurrences. rewrite filter_cons_False; [done|]. by intros [= ->].
Qed.

Lemma occurrences_cycle x p q r :
  (0 < length p)%nat → (r ≤ length p)%nat →
  occurrences x (cycle p (q * length p + r))
    = (q * occurrences x (Some <$> p) + occurrences x (Some <$> take r p))%nat.
Proof.
  intros Hpos Hr.
  by rewrite cycle_rounds, occurrences_app, occurrences_rounds.
Qed.

(** In a rearrangement of the cyclic fill of a rearrangement of distinct
    names, the first [100 mod n] of the filled order are used once more
    than the others. *)
Lemma cycle_distributed names p out :
  NoDup names → names ≡ₚ p → (0 < length names)%nat →
  out ≡ₚ cycle p 100 → distributed_succ names out.
Proof.
  intros Hnodup Hperm Hpos Hout.
  unfold distributed_succ, distributed.
  assert (Hlen : length names = length p) by by rewrite Hperm.
  set (n := length names) in *.
  set (q := (100 `div` n)%nat). set (r := (100 `mod` n)%nat).
  assert (Hr : (r < n)%nat) by (apply Nat.mod_upper_bound; lia).
  assert (H100 : (100 = q * length p + r)%nat).
  { rewrite <- Hlen, Nat.mul_comm. apply Nat.div_mod_eq. }
  assert (Hnd : NoDup p) by by rewrite <- Hperm.
  pose proof Hnd as Hsplit. rewrite <- (take_drop r p) in Hsplit.
  apply NoDup_app in Hsplit as (Hnd1 & Hdisj & Hnd2).
  assert (Hocc : ∀ x, x ∈ p →
    occurrences x out = (q + occurrences x (Some <$> take r p))%nat).
  { intros x Hx. rewrite (occurrences_perm _ _ _ Hout), H100.
    rewrite occurrences_cycle, occurrences_nodup by (done || lia). lia. }
  assert (Hin : ∀ x, x ∈ take r p → occurrences x out = (q + 1)%nat).
  { intros x Hx. rewrite Hocc by (by eapply subseteq_take).
    by rewrite occurrences_nodup. }
  assert (Hout' : ∀ x, x ∈ p → x ∉ take r p → occurrences x out = q).
  { intros x Hx Hx'. rewrite Hocc by done.
    rewrite occurrences_absent by done. lia. }
  split; [|split].
  - apply Forall_forall. intros x Hx. rewrite Hperm in Hx.
    unfold div_ceil. fold q r. destruct (decide (x ∈ take r p)) as [Hx'|Hx'].
    + rewrite Hin by done. destruct r; [by apply elem_of_nil in Hx'|].
      rewrite decide_False by done. lia.
    + rewrite Hout' by done. lia.
  - rewrite Hperm. rewrite <- (take_drop r p) at 1.
    rewrite filter_app, length_app.
    rewrite length_filter_all by (apply Forall_forall; intros; by apply Hin).
    rewrite length_filter_none.
    + rewrite length_take_le by lia. lia.
    + apply Forall_forall. intros x Hx.
      assert (x ∉ take r p) by (intros Hx'; by apply (Hdisj x)).
      rewrite Hout'; [lia| |done].
      rewrite <- (take_drop r p). apply elem_of_app. by right.
  - intros Hn. apply Forall_forall. intros x Hx. rewrite Hperm in Hx.
    assert (r = 0%nat) as Hr0 by (unfold r; by rewrite Hn).
    assert (q = 1%nat) as Hq1 by (unfold q; by rewrite Hn).
    rewrite Hocc, Hr0, Hq1 by done. done.
Qed.
End Counting.

(** ** The shuffle of an array, and with a closure of [mulberry32] *)

Lemma shuffleArray_in_range {A G} (rng : G → Q * G) (array : jsarray A) g :
  (∀ g, (0 <= (rng g).1)%Q ∧ ((rng g).1 < 1)%Q) →
  (len array ≤ 4294967295)%Z →
  (shuffleArray rng array g).1
    = JSArray (Spec.permute rng (elems array) g) (props array).
Proof.
  intros Hrange Hlen. unfold shuffleArray, Spec.permute.
  destruct (decide (length (elems array) = 0%nat)) as [->|Hne].
  - by destruct array.
  - apply shuffle_from_in_range; [done|lia|done].
Qed.

Lemma shuffleArray_state {A G} (rng : G → Q * G) (array : jsarray A) g :
  (shuffleArray rng array g).2
    = Nat.iter (length (elems array) - 1) (λ g, (rng g).2) g.
Proof. apply shuffle_from_state. Qed.

Lemma iter_call g n h :
  Nat.iter n (λ h, (call g h).2) h !!! g = advance n (h !!! g).
Proof.
  unfold advance. revert h. induction n as [|n IH]; intros h; [done|].
  rewrite !Nat.iter_succ_r, IH. by rewrite call_own.
Qed.

Lemma shuffleArray_mulberry32 {A} (array : jsarray A) seed h :
  (len array ≤ 4294967295)%Z →
  (shuffleArray (call (mulberry32 seed h).1) array (mulberry32 seed h).2).1
    = JSArray (Spec.permute mulberry32_call (elems array) seed) (props array).
Proof.
  intros Hlen. unfold shuffleArray at 1.
  rewrite shuffle_from_call, mulberry32_own.
  exact (shuffleArray_in_range mulberry32_call array seed mulberry32_call_range Hlen).
Qed.

Lemma shuffleArray_mulberry32_state {A} (array : jsarray A) seed h :
  (shuffleArray (call (mulberry32 seed h).1) array (mulberry32 seed h).2).2
    !!! (mulberry32 seed h).1
  = advance (length (elems array) - 1) seed.
Proof. by rewrite shuffleArray_state, iter_call, mulberry32_own. Qed.

Lemma spec_permute_fmap {A B G} (next : G → Q * G) (f : A → B) (l : list A) g :
  f <$> Spec.permute next l g = Spec.permute next (f <$> l) g.
Proof. unfold Spec.permute. by rewrite spec_permute_from_fmap, length_fmap. Qed.

Lemma spec_permute_perm {A G} (next : G → Q * G) (l : list A) g :
  Spec.permute next l g ≡ₚ l.
Proof. apply spec_permute_from_perm. Qed.

Lemma spec_permute_length {A G} (next : G → Q * G) (l : list A) g :
  length (Spec.permute next l g) = length l.
Proof. apply spec_permute_from_length. Qed.

(** ** The two pipelines *)

Lemma v2_generate_names (names : list string) seed :
  (Z.of_nat (length names) ≤ 4294967295)%Z →
  (AppV2.generate (of_list names) seed).1
    = of_list (Spec.permute mulberry32_call names seed).
Proof.
  intros Hlen. unfold AppV2.generate.
  pose proof (shuffleArray_mulberry32 (of_list names) seed ∅) as H.
  destruct (mulberry32 seed ∅) as [rng h]. cbn [fst snd] in H.
  destruct (shuffleArray (call rng) (of_list names) h) as [names' h'].
  cbn [fst snd] in H |- *. rewrite H.
  - unfold of_list. cbn [elems props]. by rewrite spec_permute_fmap.
  - unfold len, of_list. cbn [elems]. by rewrite length_fmap.
Qed.

Lemma v2_generate_filled names seed :
  (AppV2.generate names seed).2 = fillSquares (AppV2.generate names seed).1.
Proof.
  unfold AppV2.generate. destruct (mulberry32 seed ∅) as [rng h].
  by destruct (shuffleArray (call rng) names h).
Qed.

Lemma v2_assign (names : list string) seed :
  (1 ≤ length names ≤ 100)%nat →
  AppV2.assign (of_list names) seed
    = JSArray (Spec.assign mulberry32_call names seed) ∅.
Proof.
  intros Hlen. unfold AppV2.assign.
  rewrite v2_generate_filled, v2_generate_names by lia.
  pose proof (spec_permute_length mulberry32_call names seed) as Hp.
  pose proof (fillSquares_spec (Spec.permute mulberry32_call names seed) ∅) as He.
  pose proof (fillSquares_props (of_list (Spec.permute mulberry32_call names seed))) as Hq.
  unfold of_list in *.
  destruct (fillSquares _) as [e q]. cbn [elems props] in He, Hq.
  rewrite He, Hq by lia. done.
Qed.

Lemma v1_generate (names : jsarray string) seed :
  AppV1.generate names seed
    = JSArray (Spec.permute mulberry32_call (elems (fillSquares names)) seed) ∅.
Proof.
  unfold AppV1.generate.
  pose proof (shuffleArray_mulberry32 (fillSquares names) seed ∅) as H.
  destruct (mulberry32 seed ∅) as [rng h]. cbn [fst snd] in H.
  destruct (shuffleArray (call rng) (fillSquares names) h) as [filled h'].
  cbn [fst] in H. rewrite H, fillSquares_props; [done|].
  unfold len. rewrite fillSquares_length. lia.
Qed.

Lemma v1_generate_names (names : list string) seed :
  (1 ≤ length names ≤ 100)%nat →
  AppV1.generate (of_list names) seed
    = JSArray (Spec.permute mulberry32_call (Spec.cyclic_fill names) seed) ∅.
Proof.
  intros Hlen. rewrite v1_generate. unfold of_list.
  by rewrite fillSquares_spec by lia.
Qed.

Lemma v2_assign_length names seed :
  length (elems (AppV2.assign names seed)) = 100%nat.
Proof.
  unfold AppV2.assign. rewrite v2_generate_filled. apply fillSquares_length.
Qed.

Lemma v1_generate_length names seed :
  length (elems (AppV1.generate names seed)) = 100%nat.
Proof.
  rewrite v1_generate. cbn [elems].
  rewrite spec_permute_length. apply fillSquares_length.
Qed.

Lemma rounds_perm {A} q (l k : list A) :
  l ≡ₚ k → mjoin (replicate q l) ≡ₚ mjoin (replicate q k).
Proof.
  intros Hlk. induction q as [|q IH]; [done|].
  simpl. by rewrite IH, Hlk.
Qed.

Lemma cycle_perm_even {A} (l k : list A) (m : nat) :
  l ≡ₚ k → (0 < length l)%nat → (m `mod` length l = 0)%nat →
  cycle l m ≡ₚ cycle k m.
Proof.
  intros Hlk Hpos Hm.
  assert (Hlen : length l = length k) by by rewrite Hlk.
  assert (H : m = (m `div` length l * length l + 0)%nat).
  { pose proof (Nat.div_mod_eq m (length l)). lia. }
  rewrite H. generalize (m `div` length l)%nat as q. intros q.
  rewrite cycle_rounds by lia. rewrite Hlen, cycle_rounds by lia.
  simpl. rewrite !app_nil_r. apply rounds_perm. by rewrite Hlk.
Qed.

(** ** The order of the two steps *)

(** C1, as amended. For every name list of 1 to 100 names and every integer
    seed, the revision that shuffles first ([AppV2]) computes the squares
    as the specification words it: the cyclic fill of the names permuted by
    the shuffle, which is a rearrangement of the names. The revision of
    [docs/app.js] ([AppV1]) takes the steps in the other order and returns
    the shuffle of the cyclic fill of the names as entered. *)
Theorem pipeline_order (names : list string) (seed : Z) :
  (1 ≤ length names ≤ 100)%nat →
  AppV2.assign (of_list names) seed
    = JSArray (Spec.assign mulberry32_call names seed) ∅
  ∧ Spec.permute mulberry32_call names seed ≡ₚ names
  ∧ AppV1.generate (of_list names) seed
    = JSArray (Spec.permute mulberry32_call (Spec.cyclic_fill names) seed) ∅.
Proof.
  intros Hlen. split; [|split].
  - by apply v2_assign.
  - apply spec_permute_perm.
  - by apply v1_generate_names.
Qed.

Lemma pipeline_order_witness :
  AppV2.assign (of_list ["A"; "B"; "C"]%string) 1
    = JSArray (Spec.assign mulberry32_call ["A"; "B"; "C"]%string 1) ∅
  ∧ Spec.permute mulberry32_call ["A"; "B"; "C"]%string 1 ≡ₚ ["A"; "B"; "C"]%string
  ∧ AppV1.generate (of_list ["A"; "B"; "C"]%string) 1
    = JSArray (Spec.permute mulberry32_call
                 (Spec.cyclic_fill ["A"; "B"; "C"]%string) 1) ∅.
Proof. apply (pipeline_order ["A"; "B"; "C"]%string 1). simpl. lia. Defined.

(** C1 as stated fails on [docs/app.js]: with the names A and B and the
    seed 1 its squares are not the cyclic fill of the shuffled names. *)
Lemma pipeline_order_v1_counterexample :
  elems (AppV1.generate (of_list ["A"; "B"]%string) 1)
    ≠ Spec.assign mulberry32_call ["A"; "B"]%string 1.
Proof. intros H. vm_compute in H. discriminate H. Qed.

(** ** The distribution of the names *)

(** C2, as amended. For every list of 1 to 100 distinct names and every
    integer seed, in the 100 squares of either revision every name appears
    at least [floor(100/n)] and at most [ceil(100/n)] times, the names that
    appear [floor(100/n) + 1] times are [100 mod n] many, and with 100 names
    every name appears once. *)
Theorem names_distributed (names : list string) (seed : Z) :
  NoDup names → (1 ≤ length names ≤ 100)%nat →
  distributed_succ names (elems (AppV2.assign (of_list names) seed))
  ∧ distributed_succ names (elems (AppV1.generate (of_list names) seed)).
Proof.
  intros Hnodup Hlen. split.
  - rewrite v2_assign by done. cbn [elems].
    apply (cycle_distributed names (Spec.permute mulberry32_call names seed));
      [done| |lia|done].
    symmetry. apply spec_permute_perm.
  - rewrite v1_generate_names by done. cbn [elems].
    apply (cycle_distributed names names); [done|done|lia|].
    apply spec_permute_perm.
Qed.

Lemma names_distributed_witness :
  distributed_succ ["A"; "B"; "C"]%string
    (elems (AppV2.assign (of_list ["A"; "B"; "C"]%string) 1))
  ∧ distributed_succ ["A"; "B"; "C"]%string
    (elems (AppV1.generate (of_list ["A"; "B"; "C"]%string) 1)).
Proof.
  apply (names_distributed ["A"; "B"; "C"]%string 1).
  - apply (bool_decide_unpack _). by vm_compute.
  - simpl. lia.
Defined.

(** C2 as stated fails in two ways: a name entered twice takes the squares
    of both entries (A and A: 100 squares, not 50), and when [n] divides 100
    every name appears [ceil(100/n)] times, which are [n] names and not
    [100 mod n = 0] (B alone: one name appears 100 times). *)
Lemma names_distributed_counterexample :
  ¬ distributed_ceil ["A"; "A"]%string
      (elems (AppV2.assign (of_list ["A"; "A"]%string) 0))
  ∧ ¬ distributed_ceil ["B"]%string
      (elems (AppV2.assign (of_list ["B"]%string) 0)).
Proof.
  split.
  - intros [H _]. apply Forall_cons in H as [H _]. vm_compute in H. lia.
  - intros (_ & H & _). vm_compute in H. discriminate H.
Qed.

(** ** The number of squares *)

(** C3. For every name list and every generator, the fill of the shuffled
    names has exactly 100 elements; so have the squares of the revision
    that shuffles first, and those of the revision that fills first, for
    every seed; and so has the shuffle of the filled squares with any
    generator whose values lie in [0, 1). *)
Theorem assign_length (names : list string) :
  (∀ (G : Type) (rng : G → Q * G) (g : G),
     length (elems (fillSquares (shuffleArray rng (of_list names) g).1)) = 100%nat)
  ∧ (∀ seed, length (elems (AppV2.assign (of_list names) seed)) = 100%nat)
  ∧ (∀ seed, length (elems (AppV1.generate (of_list names) seed)) = 100%nat)
  ∧ (∀ (G : Type) (rng : G → Q * G) (g : G),
       (∀ g, (0 <= (rng g).1)%Q ∧ ((rng g).1 < 1)%Q) →
       length (elems (shuffleArray rng (fillSquares (of_list names)) g).1) = 100%nat).
Proof.
  split; [|split; [|split]].
  - intros. apply fillSquares_length.
  - intros seed. apply v2_assign_length.
  - intros seed. apply v1_generate_length.
  - intros G rng g Hrange. rewrite shuffleArray_in_range.
    + cbn [elems]. rewrite spec_permute_length. apply fillSquares_length.
    + done.
    + unfold len. rewrite fillSquares_length. lia.
Qed.

(** ** The shuffle as a rearrangement *)

(** C9, as amended. For every array and every generator whose values lie in
    [0, 1), [shuffleArray] returns the array with the same elements in the
    same multiplicities, in some order, and with its other properties
    untouched. An array has at most [2^32 - 1] elements. *)
Theorem shuffleArray_permutation {A G : Type} (rng : G → Q * G)
    (array : jsarray A) (g : G) :
  (∀ g, (0 <= (rng g).1)%Q ∧ ((rng g).1 < 1)%Q) →
  (len array ≤ 4294967295)%Z →
  elems (shuffleArray rng array g).1 ≡ₚ elems array
  ∧ props (shuffleArray rng array g).1 = props array.
Proof.
  intros Hrange Hlen. rewrite shuffleArray_in_range by done.
  split; [apply spec_permute_perm | done].
Qed.

Lemma shuffleArray_permutation_witness :
  elems (shuffleArray mulberry32_call (of_list ["A"; "B"; "C"]%string) 1).1
    ≡ₚ elems (of_list ["A"; "B"; "C"]%string)
  ∧ props (shuffleArray mulberry32_call (of_list ["A"; "B"; "C"]%string) 1).1
    = props (of_list ["A"; "B"; "C"]%string).
Proof.
  apply (shuffleArray_permutation mulberry32_call (of_list ["A"; "B"; "C"]%string) 1).
  - exact mulberry32_call_range.
  - vm_compute. discriminate.
Defined.

(** C9 as stated fails for a generator that returns 1: on the array of A
    and B the index drawn is 2, past the end, and the array comes back
    with three elements, A, a hole and B. *)
Lemma shuffleArray_permutation_counterexample :
  elems (shuffleArray (λ _ : unit, (1%Q, tt)) (of_list ["A"; "B"]%string) tt).1
    = [Some "A"%string; None; Some "B"%string]
  ∧ ¬ elems (shuffleArray (λ _ : unit, (1%Q, tt)) (of_list ["A"; "B"]%string) tt).1
      ≡ₚ elems (of_list ["A"; "B"]%string).
Proof.
  split; [by vm_compute|].
  intros H%Permutation_length. vm_compute in H. discriminate H.
Qed.

(** ** The two revisions compared *)

(** C10, as amended. For every name list of 1 to 100 names and every
    integer seed, both revisions return 100 squares; [docs/app.js] returns a
    rearrangement of the cyclic fill of the names as entered, and its
    shuffle calls the generator 99 times; the other revision returns the
    cyclic fill of a rearrangement of the names, and its shuffle calls the
    generator [n - 1] times; when [n] divides 100 the squares of the one are
    a rearrangement of the squares of the other. *)
Theorem pipelines_related (names : list string) (seed : Z) :
  (1 ≤ length names ≤ 100)%nat →
  let v1 := AppV1.generate (of_list names) seed in
  let v2 := AppV2.assign (of_list names) seed in
  let rng := (mulberry32 seed ∅).1 in
  let h := (mulberry32 seed ∅).2 in
  (length (elems v1) = 100%nat ∧ length (elems v2) = 100%nat)
  ∧ elems v1 ≡ₚ elems (fillSquares (of_list names))
  ∧ (∃ p, p ≡ₚ names ∧ v2 = fillSquares (of_list p))
  ∧ ((100 `mod` length names = 0)%nat → elems v1 ≡ₚ elems v2)
  ∧ (shuffleArray (call rng) (fillSquares (of_list names)) h).2 !!! rng
      = advance 99 seed
  ∧ (shuffleArray (call rng) (of_list names) h).2 !!! rng
      = advance (length names - 1) seed.
Proof.
  intros Hlen v1 v2 rng h. subst v1 v2 rng h.
  split; [split|]; [| |split; [|split; [|split; [|split]]]].
  - apply v1_generate_length.
  - apply v2_assign_length.
  - rewrite v1_generate. cbn [elems]. apply spec_permute_perm.
  - exists (Spec.permute mulberry32_call names seed).
    split; [apply spec_permute_perm|].
    unfold AppV2.assign. by rewrite v2_generate_filled, v2_generate_names by lia.
  - intros Hmod. rewrite v1_generate_names, v2_assign by done. cbn [elems].
    rewrite spec_permute_perm. unfold Spec.assign.
    rewrite !cyclic_fill_cycle. apply cycle_perm_even; [|lia|done].
    symmetry. apply spec_permute_perm.
  - rewrite shuffleArray_mulberry32_state. by rewrite fillSquares_length.
  - rewrite shuffleArray_mulberry32_state. unfold of_list. cbn [elems].
    by rewrite length_fmap.
Qed.

Lemma pipelines_related_witness :
  let names := ["A"; "B"]%string in
  let v1 := AppV1.generate (of_list names) 1 in
  let v2 := AppV2.assign (of_list names) 1 in
  let rng := (mulberry32 1 ∅).1 in
  let h := (mulberry32 1 ∅).2 in
  (length (elems v1) = 100%nat ∧ length (elems v2) = 100%nat)
  ∧ elems v1 ≡ₚ elems (fillSquares (of_list names))
  ∧ (∃ p, p ≡ₚ names ∧ v2 = fillSquares (of_list p))
  ∧ ((100 `mod` length names = 0)%nat → elems v1 ≡ₚ elems v2)
  ∧ (shuffleArray (call rng) (fillSquares (of_list names)) h).2 !!! rng
      = advance 99 1
  ∧ (shuffleArray (call rng) (of_list names) h).2 !!! rng
      = advance (length names - 1) 1.
Proof. apply (pipelines_related ["A"; "B"]%string 1). simpl. lia. Defined.

(** C10 as stated fails: with the names A and B and the seed 1 the two
    revisions return different squares. *)
Lemma pipelines_equal_counterexample :
  AppV1.generate (of_list ["A"; "B"]%string) 1
    ≠ AppV2.assign (of_list ["A"; "B"]%string) 1.
Proof. intros H. vm_compute in H. discriminate H. Qed.

(** ** The generator *)

(** C4. For every integer seed and every store, two closures created by
    [mulberry32] with that seed are distinct, and however the calls of the
    two are interleaved, each returns the sequence of values that the seed
    determines: the k-th value of the one is the k-th value of the other. A
    call of one leaves the variable of the other as it was. *)
Theorem mulberry32_instances (seed : Z) (h : gmap nat Z) (sched : list bool) :
  let g := (mulberry32 seed h).1 in
  let h1 := (mulberry32 seed h).2 in
  let g' := (mulberry32 seed h1).1 in
  let h2 := (mulberry32 seed h1).2 in
  g ≠ g'
  ∧ (interleave g g' sched h2).1.1
      = draws (length (filter (λ b, b = true) sched)) seed
  ∧ (interleave g g' sched h2).1.2
      = draws (length (filter (λ b, b = false) sched)) seed
  ∧ (∀ h', (call g h').2 !! g' = h' !! g')
  ∧ (∀ h', (call g' h').2 !! g = h' !! g).
Proof.
  intros g h1 g' h2.
  assert (Hg : g ∈ dom h1).
  { unfold h1, g, mulberry32. cbn [fst snd]. rewrite dom_insert_L. set_solver. }
  assert (Hne : g ≠ g').
  { intros Heq. apply (mulberry32_fresh seed h1). fold g'. by rewrite <- Heq. }
  assert (H1 : h2 !!! g = seed).
  { rewrite lookup_total_alt. unfold h2. rewrite mulberry32_frame by done.
    unfold h1, g, mulberry32. cbn [fst snd]. by rewrite lookup_insert_eq. }
  assert (H2 : h2 !!! g' = seed) by apply mulberry32_own.
  destruct (interleave_draws g g' sched h2 Hne) as [Hd Hd'].
  rewrite H1 in Hd. rewrite H2 in Hd'.
  split; [done|]. split; [done|]. split; [done|].
  split; intros h'; by apply call_frame.
Qed.

(** C6. [mulberry32] takes every integer as a seed, and the values of the
    generator depend on the seed modulo [2^32] only: seeds that are
    congruent modulo [2^32] give the same sequence, which is the sequence of
    the seed brought into the signed 32-bit range. *)
Theorem mulberry32_seed_normalised (seed seed' : Z) (n : nat) :
  (seed `mod` 4294967296 = seed' `mod` 4294967296)%Z →
  draws n seed = draws n seed'
  ∧ draws n seed = draws n (Int32.toInt32 seed)
  ∧ (-2147483648 ≤ Int32.toInt32 seed < 2147483648)%Z.
Proof.
  intros H. split; [by apply draws_congr|]. split; [|apply toInt32_range].
  apply draws_congr. unfold Int32.toInt32, Int32.two32, Int32.two31.
  destruct (_ <? _)%Z.
  - by rewrite Z.mod_mod.
  - by rewrite Zminus_mod, Z.mod_same, Z.sub_0_r, !Z.mod_mod.
Qed.

Lemma mulberry32_seed_normalised_witness :
  draws 5 (-1) = draws 5 4294967295
  ∧ draws 5 (-1) = draws 5 (Int32.toInt32 (-1))
  ∧ (-2147483648 ≤ Int32.toInt32 (-1) < 2147483648)%Z.
Proof. apply (mulberry32_seed_normalised (-1) 4294967295 5). reflexivity. Defined.

(** C7. Every value returned by a call of a closure of [mulberry32] is
    [k / 4294967296] for an integer [k] with [0 <= k < 4294967296], and
    lies in [0, 1). *)
Theorem mulberry32_value_range (g : nat) (h : gmap nat Z) :
  ∃ k : Z, (0 ≤ k < 4294967296)%Z
    ∧ (call g h).1 = (k # 4294967296)
    ∧ (0 <= (call g h).1)%Q ∧ ((call g h).1 < 1)%Q.
Proof.
  rewrite call_fst.
  destruct (mulberry32_call_num (h !!! g)) as (k & Hk & Hx).
  exists k. split; [done|]. split; [done|]. apply mulberry32_call_range.
Qed.

(** ** The validation of the inputs *)

Lemma v2_submit_accepted p seed :
  (1 ≤ len (parseNames (names_input p)) ≤ 100)%Z →
  parseInt (seed_input p) = Some seed →
  (AppV2.submit p).1 = None
  ∧ AppV2.grid_table (AppV2.submit p).2
    = Some (AppV2.buildTable (AppV2.assign (parseNames (names_input p)) seed)
              (trim (col_team_input p)) (trim (row_team_input p)))
  ∧ hidden (grid_output (AppV2.submit p).2) = false.
Proof.
  intros Hlen Hseed. unfold AppV2.submit, AppV2.assign. rewrite Hseed.
  rewrite (proj2 (Z.eqb_neq _ _)), (proj2 (Z.ltb_ge _ _)) by lia.
  by destruct (AppV2.generate _ _).
Qed.

Lemma v2_submit_rejected p :
  ¬ accepted p → ∃ msg, AppV2.submit p = (Some msg, p).
Proof.
  intros Hrej. unfold AppV2.submit.
  destruct (Z.eqb_spec (len (parseNames (names_input p))) 0); [by eexists|].
  destruct (Z.ltb_spec 100 (len (parseNames (names_input p)))); [by eexists|].
  destruct (parseInt (seed_input p)) as [seed|] eqn:Hseed; [|by eexists].
  destruct Hrej. split; [|by rewrite Hseed].
  unfold len in *. lia.
Qed.

Lemma v1_submit_accepted p seed :
  (1 ≤ len (parseNames (names_input p)) ≤ 100)%Z →
  parseInt (seed_input p) = Some seed →
  (AppV1.submit p).1 = None
  ∧ children (grid_output (AppV1.submit p).2) !! 1%nat
    = Some (AppV1.buildTable (AppV1.generate (parseNames (names_input p)) seed)
              (trim (col_team_input p)) (trim (row_team_input p)))
  ∧ hidden (grid_output (AppV1.submit p).2) = false.
Proof.
  intros Hlen Hseed. unfold AppV1.submit. rewrite Hseed.
  by rewrite (proj2 (Z.eqb_neq _ _)), (proj2 (Z.ltb_ge _ _)) by lia.
Qed.

Lemma v1_submit_rejected p :
  ¬ accepted p → ∃ msg, AppV1.submit p = (Some msg, p).
Proof.
  intros Hrej. unfold AppV1.submit.
  destruct (Z.eqb_spec (len (parseNames (names_input p))) 0); [by eexists|].
  destruct (Z.ltb_spec 100 (len (parseNames (names_input p)))); [by eexists|].
  destruct (parseInt (seed_input p)) as [seed|] eqn:Hseed; [|by eexists].
  destruct Hrej. split; [|by rewrite Hseed].
  unfold len in *. lia.
Qed.

Lemma accepted_dec p : accepted p ∨ ¬ accepted p.
Proof.
  unfold accepted.
  destruct (decide (1 ≤ len (parseNames (names_input p)) ≤ 100)%Z);
    destruct (parseInt (seed_input p)) as [seed|];
    first [left; split; [done | by eexists]
          | right; intros [? [? ?]]; done].
Qed.

(** C8. The handler of [submit] shows a grid exactly when the names parsed
    are between 1 and 100 and the seed reads as a number: then no alert is
    raised, the output section holds the table of the squares computed from
    these names and this seed, and it is shown. Otherwise the handler raises
    an alert and leaves the page as it was. This holds in both revisions. *)
Theorem submit_validation (p : page) :
  ((AppV2.submit p).1 = None ↔ accepted p)
  ∧ (∀ seed, accepted p → parseInt (seed_input p) = Some seed →
       AppV2.grid_table (AppV2.submit p).2
         = Some (AppV2.buildTable
                   (AppV2.assign (parseNames (names_input p)) seed)
                   (trim (col_team_input p)) (trim (row_team_input p)))
       ∧ hidden (grid_output (AppV2.submit p).2) = false)
  ∧ (¬ accepted p → ∃ msg, AppV2.submit p = (Some msg, p))
  ∧ ((AppV1.submit p).1 = None ↔ accepted p)
  ∧ (¬ accepted p → ∃ msg, AppV1.submit p = (Some msg, p)).
Proof.
  split; [|split; [|split; [|split]]].
  - split.
    + intros Hnone. destruct (accepted_dec p) as [|Hrej]; [done|].
      destruct (v2_submit_rejected p Hrej) as [msg Hmsg].
      by rewrite Hmsg in Hnone.
    + intros [Hlen [seed Hseed]]. by apply (v2_submit_accepted p seed).
  - intros seed [Hlen _] Hseed. by apply (v2_submit_accepted p seed).
  - apply v2_submit_rejected.
  - split.
    + intros Hnone. destruct (accepted_dec p) as [|Hrej]; [done|].
      destruct (v1_submit_rejected p Hrej) as [msg Hmsg].
      by rewrite Hmsg in Hnone.
    + intros [Hlen [seed Hseed]]. by apply (v1_submit_accepted p seed).
  - apply v1_submit_rejected.
Qed.

(** ** The share link *)

(** C5 fails on the code. The share button closes over the array [names],
    which the shuffle has reordered in place, so the link carries the
    shuffled names: for A, B, C and the seed 1 it carries C, A, B. The page
    that opens the link shuffles these once more and shows another grid.
    Besides, a name with a comma comes back as two names. *)
Theorem share_link_not_reproduced :
  let p := entered ["A"; "B"; "C"]%string "1" in
  let shown := (AppV2.submit p).2 in
  AppV2.share <$> AppV2.share_button shown
    = Some [("names", "C,A,B"); ("seed", "1")]%string
  ∧ elems (parseNames (names_input p)) = [Some "A"; Some "B"; Some "C"]%string
  ∧ elems (parseNames (names_input (reopened p)))
    = [Some "C"; Some "A"; Some "B"]%string
  ∧ AppV2.grid_table (reopened p) ≠ AppV2.grid_table shown
  ∧ elems (parseNames (names_input (entered ["Smith, John"]%string "1")))
    = [Some "Smith, John"]%string
  ∧ elems (parseNames (names_input (reopened (entered ["Smith, John"]%string "1"))))
    = [Some "Smith"; Some "John"]%string.
Proof.
  cbv zeta. split; [by vm_compute|]. split; [by vm_compute|].
  split; [by vm_compute|]. split; [|split; by vm_compute].
  intros H. vm_compute in H. discriminate H.
Qed.

(** ** Properties of the strings *)

Section StringFacts.
Local Open Scope string_scope.
Implicit Types (s t u : string) (c : ascii).

Lemma append_cons a s t : String a s +:+ t = String a (s +:+ t).
Proof. done. Qed.

Lemma append_nil_r s : s +:+ "" = s.
Proof. induction s as [|a s IH]; [done|]. by rewrite append_cons, IH. Qed.

Lemma append_assoc s t u : (s +:+ t) +:+ u = s +:+ (t +:+ u).
Proof. induction s as [|a s IH]; [done|]. by rewrite !append_cons, IH. Qed.

Lemma rev_app_rev_app s t u :
  String.rev_app (String.rev_app s t) u = String.rev_app t (s +:+ u).
Proof.
  revert t u. induction s as [|a s IH]; intros t u; [done|].
  cbn. by rewrite IH, append_cons.
Qed.

Lemma rev_involutive s : String.rev (String.rev s) = s.
Proof. unfold String.rev. rewrite rev_app_rev_app. cbn. apply append_nil_r. Qed.

Lemma rev_app_append s t u :
  String.rev_app (s +:+ t) u = String.rev_app t (String.rev_app s u).
Proof.
  revert u. induction s as [|a s IH]; intros u; [done|].
  rewrite append_cons. cbn. by rewrite IH.
Qed.

Lemma rev_app_spec s t : String.rev_app s t = String.rev s +:+ t.
Proof.
  unfold String.rev. revert t. induction s as [|a s IH]; intros t; [done|].
  cbn. rewrite IH, (IH (String a "")). by rewrite append_assoc.
Qed.

Lemma rev_append s t : String.rev (s +:+ t) = String.rev t +:+ String.rev s.
Proof. unfold String.rev at 1. by rewrite rev_app_append, rev_app_spec. Qed.

Lemma all_space_append s t :
  all_space (s +:+ t) = all_space s && all_space t.
Proof.
  induction s as [|a s IH]; [done|].
  rewrite append_cons. cbn. rewrite IH. by destruct (Ascii.is_space a).
Qed.

Lemma all_space_rev s : all_space (String.rev s) = all_space s.
Proof.
  induction s as [|a s IH]; [done|].
  change (String a s) with (String a "" +:+ s).
  rewrite rev_append, !all_space_append, IH. cbn.
  destruct (Ascii.is_space a), (all_space s); done.
Qed.

Lemma contains_append c s t : contains c (s +:+ t) = contains c s || contains c t.
Proof.
  induction s as [|a s IH]; [done|].
  rewrite append_cons. cbn. rewrite IH. by destruct (bool_decide _).
Qed.

(** [trim_start] removes a prefix of white space and stops at the first
    other character. *)
Lemma trim_start_spec s :
  ∃ w, s = w +:+ trim_start s ∧ all_space w = true ∧ starts_clean (trim_start s).
Proof.
  induction s as [|a s (w & Hs & Hw & Hc)]; [by exists ""|].
  cbn. destruct (Ascii.is_space a) eqn:Ha.
  - exists (String a w). rewrite append_cons. cbn. rewrite Ha, Hw.
    split; [by rewrite <- Hs|done].
  - by exists "".
Qed.

Lemma trim_start_clean s : starts_clean s → trim_start s = s.
Proof. destruct s as [|a s]; [done|]. cbn. by intros ->. Qed.

Lemma trim_start_all_space s : all_space s = true → trim_start s = "".
Proof.
  induction s as [|a s IH]; [done|]. cbn.
  destruct (Ascii.is_space a); [|done]. apply IH.
Qed.

Lemma starts_clean_prefix s t : s ≠ "" → starts_clean (s +:+ t) → starts_clean s.
Proof. by destruct s. Qed.

(** [trim] removes white space at both ends and nothing else. *)
Lemma trim_spec s :
  ∃ w w', s = w +:+ trim s +:+ w' ∧ all_space w = true ∧ all_space w' = true
    ∧ starts_clean (trim s) ∧ starts_clean (String.rev (trim s)).
Proof.
  unfold trim.
  destruct (trim_start_spec s) as (w & Hs & Hw & Hc).
  destruct (trim_start_spec (String.rev (trim_start s))) as (v & Hr & Hv & Hc').
  set (t := trim_start s) in *. set (u := trim_start (String.rev t)) in *.
  assert (Ht : t = String.rev u +:+ String.rev v).
  { rewrite <- rev_append, <- Hr. by rewrite rev_involutive. }
  exists w, (String.rev v). split; [by rewrite <- Ht|].
  split; [done|]. split; [by rewrite all_space_rev|]. split.
  - destruct (decide (String.rev u = "")) as [->|Hne]; [done|].
    apply (starts_clean_prefix _ (String.rev v)); [done|]. by rewrite <- Ht.
  - by rewrite rev_involutive.
Qed.

Lemma trim_clean s :
  starts_clean s → starts_clean (String.rev s) → trim s = s.
Proof.
  intros H1 H2. unfold trim.
  by rewrite (trim_start_clean s), (trim_start_clean _ H2), rev_involutive.
Qed.

Lemma trim_idemp s : trim (trim s) = trim s.
Proof.
  destruct (trim_spec s) as (w & w' & _ & _ & _ & H1 & H2).
  by apply trim_clean.
Qed.

Lemma trim_all_space s : all_space s = true → trim s = "".
Proof. intros H. unfold trim. by rewrite (trim_start_all_space s). Qed.

Lemma trim_empty_all_space s : trim s = "" → all_space s = true.
Proof.
  intros H. destruct (trim_spec s) as (w & w' & Hs & Hw & Hw' & _).
  rewrite H in Hs. rewrite Hs. by rewrite !all_space_append, Hw, Hw'.
Qed.

Lemma trim_contains c s : contains c s = false → contains c (trim s) = false.
Proof.
  intros H. destruct (trim_spec s) as (w & w' & Hs & _).
  rewrite Hs, !contains_append in H.
  by destruct (contains c w), (contains c (trim s)).
Qed.
End StringFacts.

(** ** Properties of [split] and [join] *)

Section SplitFacts.
Local Open Scope string_scope.
Implicit Types (s t : string) (c sep : ascii) (l : list string).

Lemma split_cons_sep sep s : split sep (String sep s) = "" :: split sep s.
Proof. cbn. by rewrite decide_True. Qed.

Lemma split_nonempty sep s : split sep s ≠ [].
Proof.
  induction s as [|a s IH]; [done|]. cbn.
  destruct (decide (a = sep)); [done|]. by destruct (split sep s).
Qed.

Lemma split_cons_other sep a s :
  a ≠ sep →
  ∃ w ws, split sep s = w :: ws ∧ split sep (String a s) = String a w :: ws.
Proof.
  intros Ha. cbn. rewrite decide_False by done.
  destruct (split sep s) as [|w ws] eqn:Hs; [by apply split_nonempty in Hs|].
  by exists w, ws.
Qed.

Lemma split_no_sep sep s : contains sep s = false → split sep s = [s].
Proof.
  induction s as [|a s IH]; [done|]. cbn. intros H.
  apply orb_false_iff in H as [Ha Hs]. apply bool_decide_eq_false in Ha.
  rewrite decide_False by done. by rewrite IH.
Qed.

Lemma split_append_sep sep s t :
  contains sep s = false →
  split sep (s +:+ String sep t) = s :: split sep t.
Proof.
  induction s as [|a s IH]; [intros _; apply split_cons_sep|].
  cbn [contains]. intros H.
  apply orb_false_iff in H as [Ha Hs]. apply bool_decide_eq_false in Ha.
  rewrite append_cons. cbn. rewrite decide_False by done. by rewrite IH.
Qed.

Lemma split_pieces sep s : Forall (λ w, contains sep w = false) (split sep s).
Proof.
  induction s as [|a s IH]; [by repeat constructor|].
  destruct (decide (a = sep)) as [->|Ha].
  - rewrite split_cons_sep. by constructor.
  - destruct (split_cons_other sep a s Ha) as (w & ws & Hs & ->).
    rewrite Hs in IH. apply Forall_cons in IH as [Hw Hws].
    constructor; [|done]. cbn. rewrite Hw. by rewrite bool_decide_eq_false_2.
Qed.

(** Joining the pieces of a split with another separator replaces the one
    by the other. *)
Lemma join_split_replace sep d s :
  join (String d "") (split sep s) = replace_char sep d s.
Proof.
  induction s as [|a s IH]; [done|].
  destruct (decide (a = sep)) as [->|Ha].
  - rewrite split_cons_sep. cbn [replace_char]. rewrite decide_True by done.
    rewrite <- IH. cbn [join].
    destruct (split sep s) as [|w ws] eqn:Hs; [by apply split_nonempty in Hs|].
    done.
  - destruct (split_cons_other sep a s Ha) as (w & ws & Hs & ->).
    cbn [replace_char]. rewrite decide_False by done. rewrite <- IH, Hs.
    by destruct ws.
Qed.

Lemma replace_char_same c s : replace_char c c s = s.
Proof.
  induction s as [|a s IH]; [done|]. cbn. rewrite IH. by destruct (decide _) as [->|].
Qed.

Lemma replace_char_absent c d s : contains c s = false → replace_char c d s = s.
Proof.
  induction s as [|a s IH]; [done|]. cbn. intros H.
  apply orb_false_iff in H as [Ha Hs]. apply bool_decide_eq_false in Ha.
  by rewrite decide_False, IH.
Qed.

Lemma split_join sep l :
  l ≠ [] → Forall (λ w, contains sep w = false) l →
  split sep (join (String sep "") l) = l.
Proof.
  intros Hne Hl. induction Hl as [|w l Hw Hl IH]; [done|].
  destruct l as [|w' l]; [by apply split_no_sep|].
  change (join (String sep "") (w :: w' :: l))
    with (w +:+ String sep (join (String sep "") (w' :: l))).
  rewrite split_append_sep by done. by rewrite IH.
Qed.
End SplitFacts.

(** ** Properties of [parseNames] *)

Section ParseNamesFacts.
Local Open Scope string_scope.
Implicit Types (s text : string) (l : list string).

Lemma length_pos_nonempty s : (0 < String.length s)%nat ↔ s ≠ "".
Proof. destruct s; cbn; split; (done || lia). Qed.

Lemma all_space_pieces sep s :
  all_space s = true → Forall (λ w, all_space w = true) (split sep s).
Proof.
  induction s as [|a s IH]; [by repeat constructor|].
  cbn [all_space]. intros [Ha Hs]%andb_true_iff. specialize (IH Hs).
  destruct (decide (a = sep)) as [->|Hne].
  - rewrite split_cons_sep. by constructor.
  - destruct (split_cons_other sep a s Hne) as (w & ws & Hw & ->).
    rewrite Hw in IH. apply Forall_cons in IH as [H1 H2].
    constructor; [|done]. cbn. by rewrite Ha, H1.
Qed.

Lemma all_space_join l :
  Forall (λ w, all_space w = true) l → all_space (join newline l) = true.
Proof.
  induction 1 as [|w l Hw Hl IH]; [done|].
  destruct l as [|w' l]; [done|].
  change (join newline (w :: w' :: l))
    with (w +:+ String LF (join newline (w' :: l))).
  rewrite all_space_append, Hw. cbn [all_space]. by rewrite IH.
Qed.

Lemma filter_trim_nil l :
  filter (λ s, 0 < String.length s)%nat (trim <$> l) = [] ↔
  Forall (λ w, all_space w = true) l.
Proof.
  induction l as [|w l IH]; [done|]. rewrite fmap_cons, filter_cons.
  destruct (decide _) as [Hw|Hw].
  - split; [done|]. intros [H _]%Forall_cons.
    apply length_pos_nonempty in Hw. by rewrite trim_all_space in Hw.
  - rewrite IH, Forall_cons. split; [|by intros [_ ?]].
    intros Hl. split; [|done]. apply trim_empty_all_space.
    destruct (trim w); [done|]. cbn in Hw. lia.
Qed.

Lemma clean_name_trim s : contains LF s = false → trim s ≠ "" → clean_name (trim s).
Proof.
  intros Hs Hne. split; [done|]. split; [apply trim_idemp|by apply trim_contains].
Qed.
End ParseNamesFacts.

Lemma parseNames_elems_clean (text : string) :
  Forall (λ v, ∃ s, v = Some s ∧ clean_name s) (elems (parseNames text))
  ∧ props (parseNames text) = ∅.
Proof.
  split; [|done]. unfold parseNames, of_list. cbn [elems].
  apply Forall_fmap, Forall_forall. intros s Hs. exists s. split; [done|].
  apply list_elem_of_filter in Hs as [Hlen Hs].
  apply list_elem_of_fmap in Hs as (w & -> & Hw).
  apply clean_name_trim; [|by apply length_pos_nonempty].
  pose proof (split_pieces LF text) as Hp.
  by apply (proj1 (Forall_forall _ _) Hp).
Qed.

Lemma filter_trim_clean (l : list string) :
  Forall clean_name l →
  filter (λ s, 0 < String.length s)%nat (trim <$> l) = l.
Proof.
  induction 1 as [|s l (Hne & Htrim & _) Hl IH]; [done|].
  rewrite fmap_cons, filter_cons_True, Htrim, IH; [done|].
  rewrite Htrim. by apply length_pos_nonempty.
Qed.

Lemma parseNames_of_join (l : list string) :
  Forall clean_name l → parseNames (join newline l) = of_list l.
Proof.
  intros Hl. unfold parseNames. f_equal.
  assert (Hsplit : l ≠ [] → split LF (join newline l) = l).
  { intros Hne. apply split_join; [done|].
    eapply Forall_impl; [exact Hl|]. by intros s (_ & _ & ?). }
  destruct (decide (l = [])) as [->|Hne]; [done|].
  rewrite Hsplit by done. by apply filter_trim_clean.
Qed.

Lemma parseNames_len_zero (text : string) :
  len (parseNames text) = 0%Z ↔ all_space text = true.
Proof.
  unfold len, parseNames, of_list. cbn [elems]. rewrite length_fmap.
  rewrite <- Nat2Z.inj_0, Nat2Z.inj_iff, length_zero_iff_nil, filter_trim_nil.
  split.
  - intros H. apply all_space_join in H.
    unfold newline in H. by rewrite join_split_replace, replace_char_same in H.
  - apply all_space_pieces.
Qed.


(** X9. Names that are not empty, trimmed and on one line each are read back
    from the text that holds them one per line, in the same order; so the
    names parsed from any text, written one per line, are parsed as they
    were. *)
Theorem parseNames_round_trip (text : string) :
  (∀ l, Forall clean_name l → parseNames (join newline l) = of_list l)
  ∧ parseNames (join newline (default ""%string <$> elems (parseNames text)))
    = parseNames text.
Proof.
  split; [apply parseNames_of_join|].
  destruct (parseNames_elems_clean text) as [Hclean _].
  unfold parseNames in *. set (l := filter _ _) in *.
  unfold of_list in Hclean |- *. cbn [elems] in Hclean |- *.
  rewrite <- list_fmap_compose, list_fmap_id.
  fold (of_list l). fold (parseNames (join newline l)).
  apply parseNames_of_join.
  rewrite Forall_fmap in Hclean. eapply Forall_impl; [exact Hclean|].
  by intros s (s' & [= <-] & Hs).
Qed.

(** ** Properties of [parseInt] *)

Section ParseIntFacts.
Local Open Scope string_scope.
Implicit Types (s t w : string) (c : ascii).

Lemma digit_char (d : N) :
  (d < 10)%N → Ascii.is_nat (pretty_N_char d) = Some (N.to_nat d).
Proof.
  intros Hd. rewrite <- (N2Nat.id d) in Hd |- *.
  generalize dependent (N.to_nat d). intros n Hn. rewrite Nat2N.id.
  do 10 (destruct n as [|n]; [done|]). lia.
Qed.

Lemma digit_not_sign c t :
  Ascii.is_nat c ≠ None →
  parseInt (String c t) = digits (String c t) None ∧ Ascii.is_space c = false.
Proof.
  intros Hc. unfold parseInt.
  destruct c as [[] [] [] [] [] [] [] []]; cbn in Hc |- *; done.
Qed.

Lemma digits_stop s acc : no_digit_ahead s → digits s acc = acc.
Proof. destruct s as [|c s]; [done|]. cbn. by intros ->. Qed.

Lemma pretty_N_go_append (x : N) s t :
  pretty_N_go x s +:+ t = pretty_N_go x (s +:+ t).
Proof.
  revert s. induction (N.lt_wf_0 x) as [x _ IH]; intros s.
  destruct (decide (0 < x)%N) as [Hx|Hx].
  - rewrite (pretty_N_go_step x s), (pretty_N_go_step x (s +:+ t)) by done.
    rewrite IH by (apply N.div_lt; [done|lia]). by rewrite append_cons.
  - assert (x = 0%N) as -> by lia. by rewrite !pretty_N_go_0.
Qed.

(** The digits that [pretty] writes for a positive number start with a
    digit and are read back as that number. *)
Lemma digits_pretty_N_go (x : N) s :
  (0 < x)%N →
  (∃ c t, pretty_N_go x s = String c t ∧ Ascii.is_nat c ≠ None)
  ∧ digits (pretty_N_go x s) None = digits s (Some (Z.of_N x)).
Proof.
  revert s. induction (N.lt_wf_0 x) as [x _ IH]; intros s Hx.
  rewrite pretty_N_go_step by done.
  pose proof (digit_char (x `mod` 10) ltac:(apply N.mod_lt; lia)) as Hd.
  destruct (decide (0 < x `div` 10)%N) as [Hq|Hq].
  - destruct (IH (x `div` 10)%N ltac:(apply N.div_lt; [done|lia])
                (String (pretty_N_char (x `mod` 10)) s) Hq) as [Hfirst Hdigits].
    split; [done|]. rewrite Hdigits. cbn [digits]. rewrite Hd. cbn [default].
    do 2 f_equal. rewrite N_nat_Z. unfold id. pose proof (N.div_mod x 10 ltac:(lia)). lia.
  - assert (Hq0 : (x `div` 10 = 0)%N) by (by apply N.le_0_r, N.nlt_ge).
    rewrite Hq0, pretty_N_go_0. split.
    + eexists _, _. split; [done|]. by rewrite Hd.
    + cbn [digits]. rewrite Hd. cbn [default].
      do 2 f_equal. rewrite N_nat_Z. unfold id. pose proof (N.div_mod x 10 ltac:(lia)). lia.
Qed.

Lemma parseInt_skip_space w s : all_space w = true → parseInt (w +:+ s) = parseInt s.
Proof.
  intros Hw. unfold parseInt. f_equal.
  induction w as [|a w IH]; [done|].
  cbn [all_space] in Hw. apply andb_true_iff in Hw as [Ha Hw].
  rewrite append_cons. cbn [trim_start]. rewrite Ha. by apply IH.
Qed.

Lemma parseInt_pretty_pos (p : positive) t :
  no_digit_ahead t → parseInt (pretty (Z.pos p) +:+ t) = Some (Z.pos p).
Proof.
  intros Ht. unfold pretty, pretty_Z, pretty_positive, pretty, pretty_N.
  rewrite decide_False by done. rewrite pretty_N_go_append.
  destruct (digits_pretty_N_go (N.pos p) ("" +:+ t) ltac:(lia))
    as [(c & u & Hu & Hc) Hd].
  rewrite Hu in Hd |- *.
  destruct (digit_not_sign c u Hc) as [-> _]. rewrite Hd.
  by apply digits_stop.
Qed.

Lemma parseInt_pretty_neg (p : positive) t :
  no_digit_ahead t → parseInt (pretty (Z.neg p) +:+ t) = Some (Z.neg p).
Proof.
  intros Ht. unfold pretty at 1, pretty_Z, pretty_positive, pretty, pretty_N.
  rewrite decide_False by done.
  change (parseInt (String "-" (pretty_N_go (N.pos p) "" +:+ t)) = Some (Z.neg p)).
  rewrite pretty_N_go_append. unfold parseInt. cbn [trim_start Ascii.is_space].
  destruct (digits_pretty_N_go (N.pos p) ("" +:+ t) ltac:(lia)) as [_ ->].
  by rewrite digits_stop.
Qed.
End ParseIntFacts.

(** The decimal text of an integer is read back by [parseInt] as that
    integer, also after white space and before anything that does not
    start with a digit. *)
Lemma parseInt_pretty (z : Z) (w t : string) :
  all_space w = true → no_digit_ahead t →
  parseInt (w +:+ pretty z +:+ t) = Some z.
Proof.
  intros Hw Ht. rewrite parseInt_skip_space by done.
  destruct z as [|p|p].
  - change (pretty 0%Z +:+ t)%string with (String "0" t).
    unfold parseInt. cbn. by rewrite digits_stop.
  - by apply parseInt_pretty_pos.
  - by apply parseInt_pretty_neg.
Qed.



(** ** The state of the generator *)

Lemma toInt32_mod x : (Int32.toInt32 x `mod` 4294967296 = x `mod` 4294967296)%Z.
Proof.
  unfold Int32.toInt32, Int32.two32, Int32.two31. destruct (_ <? _)%Z.
  - by rewrite Z.mod_mod.
  - by rewrite Zminus_mod, Z.mod_same, Z.sub_0_r, !Z.mod_mod.
Qed.

Lemma toInt32_eq_iff x y :
  Int32.toInt32 x = Int32.toInt32 y ↔ (x `mod` 4294967296 = y `mod` 4294967296)%Z.
Proof.
  split; [|apply toInt32_congr].
  intros H. by rewrite <- (toInt32_mod x), <- (toInt32_mod y), H.
Qed.

Lemma mulberry32_call_state seed :
  (mulberry32_call seed).2 = Int32.toInt32 (seed + 0x6d2b79f5).
Proof.
  unfold mulberry32_call. cbn [snd]. rewrite !bitor_0_r.
  apply toInt32_congr. by rewrite Zplus_mod, toInt32_mod, <- Zplus_mod.
Qed.

Lemma advance_S n seed :
  advance (S n) seed = (mulberry32_call (advance n seed)).2.
Proof. done. Qed.

Lemma advance_succ (n : nat) (seed : Z) :
  advance (S n) seed = Int32.toInt32 (seed + Z.of_nat (S n) * 0x6d2b79f5).
Proof.
  induction n as [|n IH].
  - rewrite advance_S. cbn [advance Nat.iter]. rewrite mulberry32_call_state.
    f_equal; lia.
  - rewrite advance_S, IH, mulberry32_call_state. apply toInt32_congr.
    rewrite Zplus_mod, toInt32_mod, <- Zplus_mod. f_equal; lia.
Qed.

Lemma odd_step_cancel (d : Z) :
  ((d * 0x6d2b79f5) `mod` 4294967296 = 0 ↔ d `mod` 4294967296 = 0)%Z.
Proof.
  split; intros H.
  - assert (Hinv : (d `mod` 4294967296
              = ((d * 0x6d2b79f5) `mod` 4294967296 * 3696798301) `mod` 4294967296)%Z).
    { rewrite Zmult_mod_idemp_l, <- Z.mul_assoc, <- Zmult_mod_idemp_r.
      change ((0x6d2b79f5 * 3696798301) `mod` 4294967296)%Z with 1%Z.
      by rewrite Z.mul_1_r. }
    by rewrite Hinv, H.
  - by rewrite <- Zmult_mod_idemp_l, H.
Qed.

(** X1. The variable of a closure is a counter: after [n + 1] calls it holds
    the seed plus [n + 1] times [0x6d2b79f5], brought into the signed 32-bit
    range. So the generator has the full period: the variable returns to a
    value it held exactly after a multiple of [2^32] calls. *)
Theorem advance_counter (m n : nat) (seed : Z) :
  advance (S n) seed = Int32.toInt32 (seed + Z.of_nat (S n) * 0x6d2b79f5)
  ∧ (advance (S m) seed = advance (S n) seed
     ↔ ((Z.of_nat m - Z.of_nat n) `mod` 4294967296 = 0)%Z).
Proof.
  split; [apply advance_succ|].
  rewrite !advance_succ, toInt32_eq_iff, Z.cong_iff_0.
  replace (seed + Z.of_nat (S m) * 0x6d2b79f5
           - (seed + Z.of_nat (S n) * 0x6d2b79f5))%Z
    with ((Z.of_nat m - Z.of_nat n) * 0x6d2b79f5)%Z by lia.
  apply odd_step_cancel.
Qed.

(** ** More on the shuffle *)

(** X2. [shuffleArray] calls the generator once for every index from the last
    down to 1, whatever the values it returns; an array of at most one
    element comes back as it is, without a call. *)
Theorem shuffleArray_calls {A G : Type} (rng : G → Q * G)
    (array : jsarray A) (g : G) :
  (shuffleArray rng array g).2
    = Nat.iter (length (elems array) - 1) (λ g, (rng g).2) g
  ∧ ((length (elems array) ≤ 1)%nat → shuffleArray rng array g = (array, g)).
Proof.
  split; [apply shuffleArray_state|].
  intros Hlen. unfold shuffleArray.
  by replace (length (elems array) - 1)%nat with 0%nat by lia.
Qed.

Section PermuteFacts.
Context {A G : Type} (next : G → Q * G).
Hypothesis next_range : ∀ g, (0 <= (next g).1)%Q ∧ ((next g).1 < 1)%Q.




End PermuteFacts.



(** ** More on the fill *)

(** X5. For at least one name, [fillSquares] is the expression of its comment:
    the names repeated [ceil(100 / n)] times, cut to the first 100. With
    more than 100 names these are the first 100 names. *)
Theorem fillSquares_repeat (l : list string) :
  (0 < length l)%nat → (Z.of_nat (length l) ≤ 4294967295)%Z →
  elems (fillSquares (of_list l))
    = Some <$> take 100 (mjoin (replicate (div_ceil 100 (length l)) l)).
Proof.
  intros Hpos Hlen. unfold of_list. rewrite fillSquares_spec by done.
  rewrite cyclic_fill_cycle. unfold div_ceil.
  pose proof (Nat.mod_upper_bound 100 (length l) ltac:(lia)) as Hr.
  pose proof (Nat.div_mod_eq 100 (length l)) as H100.
  rewrite Nat.mul_comm in H100.
  generalize dependent (100 `mod` length l)%nat. intros r Hr.
  generalize dependent (100 `div` length l)%nat. intros q H100.
  assert (Hq : ∀ k, length (mjoin (replicate k l)) = (k * length l)%nat).
  { induction k as [|k IH]; [done|]. simpl. rewrite length_app, IH. done. }
  assert (Hfmap : ∀ k, mjoin (replicate k (Some <$> l))
                       = Some <$> mjoin (replicate k l)).
  { induction k as [|k IH]; [done|]. simpl. by rewrite fmap_app, IH. }
  rewrite H100 at 1. rewrite cycle_rounds by lia.
  rewrite Hfmap, <- fmap_app. f_equal.
  destruct (decide (r = 0%nat)) as [Hr0|Hr0].
  - rewrite Hr0, Nat.add_0_r, take_0, app_nil_r.
    pose proof (Hq q). rewrite take_ge; [done|lia].
  - replace (q + 1)%nat with (S q) by lia. rewrite replicate_S_end.
    rewrite join_app. simpl. rewrite app_nil_r.
    pose proof (Hq q).
    rewrite take_app, (take_ge (mjoin (replicate q l))) by lia.
    do 2 f_equal. lia.
Qed.

Lemma fillSquares_repeat_witness :
  elems (fillSquares (of_list ["A"; "B"; "C"]%string))
    = Some <$> take 100 (mjoin (replicate (div_ceil 100
                (length ["A"; "B"; "C"]%string)) ["A"; "B"; "C"]%string)).
Proof.
  apply (fillSquares_repeat ["A"; "B"; "C"]%string); cbn; [lia|discriminate].
Defined.

(** X6. Without names [fillSquares] returns 100 squares that are [undefined];
    with names it repeats itself with the period of their number. *)
Theorem fillSquares_edges {A : Type} (names : jsarray A) (k : nat) :
  (elems names = [] → elems (fillSquares names) = replicate 100 None)
  ∧ ((k + length (elems names) < 100)%nat →
     elems (fillSquares names) !! (k + length (elems names))%nat
       = elems (fillSquares names) !! k).
Proof.
  rewrite fillSquares_elems. split.
  - intros Hnil. unfold cycle_get, len. rewrite Hnil. done.
  - intros Hk. rewrite !list_lookup_fmap.
    rewrite !lookup_seq_lt by lia. cbn. f_equal.
    unfold cycle_get. destruct (Z.eqb_spec (len names) 0) as [|Hne]; [done|].
    f_equal. unfold len in *. rewrite Nat2Z.inj_add.
    rewrite <- Zplus_mod_idemp_r, Z.mod_same, Z.add_0_r by done. done.
Qed.

(** X7. One name alone fills every square, in both revisions and for every
    seed. *)
Theorem single_name (x : string) (seed : Z) :
  elems (AppV1.generate (of_list [x]) seed) = replicate 100 (Some x)
  ∧ elems (AppV2.assign (of_list [x]) seed) = replicate 100 (Some x).
Proof.
  assert (Hfill : Spec.cyclic_fill [x] = replicate 100 (Some x)).
  { unfold Spec.cyclic_fill. apply list_eq. intros i.
    rewrite list_lookup_fmap.
    destruct (decide (i < 100)%nat) as [Hi|Hi].
    - rewrite lookup_seq_lt, lookup_replicate_2 by done.
      cbn [fmap option_fmap option_map length]. by rewrite Nat.mod_1_r.
    - rewrite lookup_seq_ge by lia. symmetry.
      apply lookup_replicate_None. lia. }
  split.
  - rewrite v1_generate_names by (cbn; lia). cbn [elems]. rewrite Hfill.
    symmetry. apply replicate_as_Forall. split.
    + by rewrite spec_permute_length, length_replicate.
    + rewrite spec_permute_perm. by apply Forall_replicate.
  - rewrite v2_assign by (cbn; lia). cbn [elems]. by unfold Spec.assign.
Qed.

(** ** The table *)

Lemma squares_by_index (squares : jsarray string) :
  length (elems squares) = 100%nat →
  (λ k : nat, default ""%string (get squares (Z.of_nat k))) <$> seq 0 100
    = default ""%string <$> elems squares.
Proof.
  intros Hlen. apply list_eq. intros i. rewrite !list_lookup_fmap.
  destruct (decide (i < 100)%nat) as [Hi|Hi].
  - rewrite lookup_seq_lt by done. cbn [fmap option_fmap option_map Nat.add].
    rewrite get_elem by lia.
    by destruct (lookup_lt_is_Some_2 (elems squares) i ltac:(lia)) as [v ->].
  - rewrite lookup_seq_ge, lookup_ge_None_2 by lia. done.
Qed.

Lemma v1_table_cells squares colTeam rowTeam :
  td_texts (AppV1.buildTable squares colTeam rowTeam)
    = (λ k : nat, default ""%string (get squares (Z.of_nat k))) <$> seq 0 100
  ∧ count_tag "tr" (AppV1.buildTable squares colTeam rowTeam)
    = (11 + if decide (colTeam = ""%string) then 0 else 1)%nat.
Proof.
  unfold AppV1.buildTable. destruct (decide (colTeam = ""%string)); by vm_compute.
Qed.

Lemma v2_table_cells squares colTeam rowTeam :
  td_texts (AppV2.buildTable squares colTeam rowTeam)
    = (λ k : nat, default ""%string (get squares (Z.of_nat k))) <$> seq 0 100
  ∧ count_tag "tr" (AppV2.buildTable squares colTeam rowTeam)
    = (11 + if decide (colTeam = ""%string) then 0 else 1)%nat.
Proof.
  unfold AppV2.buildTable.
  assert (Hb : bool_decide (rowTeam ≠ ""%string)
               = if decide (rowTeam = ""%string) then false else true).
  { destruct (decide _) as [Hr|Hr].
    - apply bool_decide_eq_false_2. by intros [].
    - by apply bool_decide_eq_true_2. }
  rewrite Hb.
  destruct (decide (colTeam = ""%string)), (decide (rowTeam = ""%string));
    by vm_compute.
Qed.

(** X10. The cells of the table, read row by row, are the 100 squares, and the
    table has the row of the digits and ten rows of names, with one more
    row on top exactly when a column label is given; in both revisions. *)
Theorem buildTable_cells (squares : jsarray string) (colTeam rowTeam : string) :
  length (elems squares) = 100%nat →
  td_texts (AppV1.buildTable squares colTeam rowTeam)
    = default ""%string <$> elems squares
  ∧ td_texts (AppV2.buildTable squares colTeam rowTeam)
    = default ""%string <$> elems squares
  ∧ count_tag "tr" (AppV1.buildTable squares colTeam rowTeam)
    = (11 + if decide (colTeam = ""%string) then 0 else 1)%nat
  ∧ count_tag "tr" (AppV2.buildTable squares colTeam rowTeam)
    = (11 + if decide (colTeam = ""%string) then 0 else 1)%nat.
Proof.
  intros Hlen.
  destruct (v1_table_cells squares colTeam rowTeam) as [H1 H1'].
  destruct (v2_table_cells squares colTeam rowTeam) as [H2 H2'].
  rewrite H1, H2, squares_by_index by done. done.
Qed.

Lemma buildTable_cells_witness :
  let squares := fillSquares (of_list ["A"; "B"; "C"]%string) in
  td_texts (AppV1.buildTable squares "Home" "Away")
    = default ""%string <$> elems squares
  ∧ td_texts (AppV2.buildTable squares "Home" "Away")
    = default ""%string <$> elems squares
  ∧ count_tag "tr" (AppV1.buildTable squares "Home" "Away")
    = (11 + if decide ("Home" = ""%string) then 0 else 1)%nat
  ∧ count_tag "tr" (AppV2.buildTable squares "Home" "Away")
    = (11 + if decide ("Home" = ""%string) then 0 else 1)%nat.
Proof.
  apply (buildTable_cells (fillSquares (of_list ["A"; "B"; "C"]%string))
           "Home" "Away").
  reflexivity.
Defined.

(** ** More on the handlers *)

Lemma v2_submit_inputs p :
  names_input (AppV2.submit p).2 = names_input p
  ∧ seed_input (AppV2.submit p).2 = seed_input p
  ∧ col_team_input (AppV2.submit p).2 = col_team_input p
  ∧ row_team_input (AppV2.submit p).2 = row_team_input p.
Proof.
  unfold AppV2.submit.
  destruct (_ =? _)%Z; [done|]. destruct (_ <? _)%Z; [done|].
  destruct (parseInt _); [|done]. by destruct (AppV2.generate _ _).
Qed.





(** X12. The alerts, in the order of the tests: a text of white space only asks
    for a name, whatever the seed; more than 100 names are too many,
    whatever the seed; and only then a seed that is no number is refused.
    Both revisions raise the same alert. *)
Theorem submit_alerts (p : page) :
  (AppV1.submit p).1 = (AppV2.submit p).1
  ∧ (all_space (names_input p) = true →
     (AppV2.submit p).1 = Some "Please enter at least one name."%string)
  ∧ ((100 < len (parseNames (names_input p)))%Z →
     (AppV2.submit p).1
       = Some "Too many names — the grid has exactly 100 squares. Please enter 100 or fewer names."%string)
  ∧ ((1 ≤ len (parseNames (names_input p)) ≤ 100)%Z →
     parseInt (seed_input p) = None →
     (AppV2.submit p).1
       = Some "Please enter a valid number for the random seed."%string).
Proof.
  split; [|split; [|split]].
  - unfold AppV1.submit, AppV2.submit.
    destruct (_ =? _)%Z; [done|]. destruct (_ <? _)%Z; [done|].
    destruct (parseInt _); [|done]. by destruct (AppV2.generate _ _).
  - intros Hblank%parseNames_len_zero. unfold AppV2.submit.
    by rewrite Hblank.
  - intros Hlen. unfold AppV2.submit.
    by rewrite (proj2 (Z.eqb_neq _ _)), (proj2 (Z.ltb_lt _ _)) by lia.
  - intros Hlen Hseed. unfold AppV2.submit. rewrite Hseed.
    by rewrite (proj2 (Z.eqb_neq _ _)), (proj2 (Z.ltb_ge _ _)) by lia.
Qed.

(** ** The parameters of the address *)

Lemma param_here k v ps : AppV2.param k ((k, v) :: ps) = Some v.
Proof. cbn. by rewrite decide_True. Qed.

Lemma param_next k k' v ps :
  k' ≠ k → AppV2.param k ((k', v) :: ps) = AppV2.param k ps.
Proof. intros Hk. cbn. by rewrite decide_False. Qed.


Lemma open_names_submit (params : list (string * string)) (p : page) (v : string) :
  AppV2.param "names" params = Some v →
  AppV2.open params p
    = AppV2.submit
        (Page (replace_char ","%char LF v)
           (default (seed_input p) (AppV2.param "seed" params))
           (default (col_team_input p) (AppV2.param "colTeam" params))
           (default (row_team_input p) (AppV2.param "rowTeam" params))
           (grid_output p)).
Proof.
  intros Hnames. unfold AppV2.open. rewrite Hnames.
  unfold newline. rewrite join_split_replace.
  destruct p as [n s c r o].
  by destruct (AppV2.param "seed" params), (AppV2.param "colTeam" params),
    (AppV2.param "rowTeam" params).
Qed.



(** ** More on the share link *)

Lemma v2_share_button p seed :
  (1 ≤ len (parseNames (names_input p)) ≤ 100)%Z →
  parseInt (seed_input p) = Some seed →
  AppV2.share_button (AppV2.submit p).2
    = Some (CopyShareLink (AppV2.generate (parseNames (names_input p)) seed).1
              seed (trim (col_team_input p)) (trim (row_team_input p))).
Proof.
  intros Hlen Hseed. unfold AppV2.submit. rewrite Hseed.
  rewrite (proj2 (Z.eqb_neq _ _)), (proj2 (Z.ltb_ge _ _)) by lia.
  by destruct (AppV2.generate _ _).
Qed.

(** The page that opens the link of [p]: the page submitted with the names
    of the link and with the seed and the labels that [p] was shown with. *)
Lemma reopened_submit p seed :
  (1 ≤ len (parseNames (names_input p)) ≤ 100)%Z →
  parseInt (seed_input p) = Some seed →
  reopened p
    = (AppV2.submit
         (Page (replace_char ","%char LF
                  (join "," (default ""%string
                     <$> elems (AppV2.generate (parseNames (names_input p)) seed).1)))
            (pretty seed) (trim (col_team_input p)) (trim (row_team_input p))
            (OutputSection [] true))).2.
Proof.
  intros Hlen Hseed. unfold reopened. cbv zeta.
  rewrite (v2_share_button p seed) by done.
  cbn [fmap option_fmap option_map default]. unfold AppV2.share.
  set (names := join "," _). set (c := trim (col_team_input p)).
  set (r := trim (row_team_input p)).
  destruct (decide (c = ""%string)) as [Hc|Hc], (decide (r = ""%string)) as [Hr|Hr];
    cbn [app];
    rewrite (open_names_submit _ blank names) by apply param_here;
    do 2 f_equal;
    repeat (rewrite param_next by done); rewrite ?param_here;
    cbn [AppV2.param default blank col_team_input row_team_input];
    by rewrite ?Hc, ?Hr.
Qed.

(** X14. The page that opens a share link reads the seed and the two labels
    that the grid was shown with, for a seed that a double holds exactly
    ([parseInt] and the decimal text are exact there). *)
Theorem share_link_inputs (p : page) (seed : Z) :
  accepted p → parseInt (seed_input p) = Some seed →
  (Z.abs seed ≤ 9007199254740991)%Z →
  seed_input (reopened p) = pretty seed
  ∧ parseInt (seed_input (reopened p)) = Some seed
  ∧ col_team_input (reopened p) = trim (col_team_input p)
  ∧ trim (col_team_input (reopened p)) = trim (col_team_input p)
  ∧ row_team_input (reopened p) = trim (row_team_input p)
  ∧ trim (row_team_input (reopened p)) = trim (row_team_input p).
Proof.
  intros [Hlen _] Hseed _. rewrite (reopened_submit p seed) by done.
  destruct (v2_submit_inputs
    (Page (replace_char ","%char LF
             (join "," (default ""%string
                <$> elems (AppV2.generate (parseNames (names_input p)) seed).1)))
       (pretty seed) (trim (col_team_input p)) (trim (row_team_input p))
       (OutputSection [] true))) as (_ & -> & -> & ->).
  cbn [seed_input col_team_input row_team_input].
  rewrite !trim_idemp. split; [done|]. split; [|done].
  rewrite <- (append_nil_r (pretty seed)).
  by apply (parseInt_pretty seed "" "").
Qed.

Lemma share_link_inputs_witness :
  let p := entered ["Ann"; "Bob"]%string "12" in
  seed_input (reopened p) = pretty 12%Z
  ∧ parseInt (seed_input (reopened p)) = Some 12%Z
  ∧ col_team_input (reopened p) = trim (col_team_input p)
  ∧ trim (col_team_input (reopened p)) = trim (col_team_input p)
  ∧ row_team_input (reopened p) = trim (row_team_input p)
  ∧ trim (row_team_input (reopened p)) = trim (row_team_input p).
Proof.
  apply (share_link_inputs (entered ["Ann"; "Bob"]%string "12") 12).
  - split; [by vm_compute | by eexists].
  - reflexivity.
  - simpl. lia.
Defined.

(** X15. The names of a share link are the names in the order in which the
    shuffle left them: when no name holds a comma, the page that opens the
    link parses these names in this order, is accepted, and shows the grid
    of the shuffled names for the same seed and labels (for a seed that a
    double holds exactly). *)
Theorem share_link_names (p : page) (seed : Z) :
  accepted p → parseInt (seed_input p) = Some seed →
  (Z.abs seed ≤ 9007199254740991)%Z →
  Forall (λ v, ∃ s, v = Some s ∧ contains ","%char s = false)
    (elems (parseNames (names_input p))) →
  let shuffled := (AppV2.generate (parseNames (names_input p)) seed).1 in
  parseNames (names_input (reopened p)) = shuffled
  ∧ elems shuffled ≡ₚ elems (parseNames (names_input p))
  ∧ accepted (reopened p)
  ∧ AppV2.grid_table (reopened p)
    = Some (AppV2.buildTable (AppV2.assign shuffled seed)
              (trim (col_team_input p)) (trim (row_team_input p))).
Proof.
  intros [Hlen _] Hseed _ Hcomma shuffled.
  rewrite (reopened_submit p seed) by done. fold shuffled.
  destruct (parseNames_elems_clean (names_input p)) as [Hclean _].
  unfold parseNames in Hlen, Hcomma, Hclean, shuffled.
  set (l := filter _ _) in *.
  assert (Hl : Forall clean_name l).
  { unfold of_list in Hclean. cbn [elems] in Hclean.
    rewrite Forall_fmap in Hclean. eapply Forall_impl; [exact Hclean|].
    by intros s (s' & [= <-] & Hs). }
  assert (Hc : Forall (λ s, contains ","%char s = false) l).
  { unfold of_list in Hcomma. cbn [elems] in Hcomma.
    rewrite Forall_fmap in Hcomma. eapply Forall_impl; [exact Hcomma|].
    by intros s (s' & [= <-] & Hs). }
  unfold len, of_list in Hlen. cbn [elems] in Hlen. rewrite length_fmap in Hlen.
  assert (Hshuffled : shuffled = of_list (Spec.permute mulberry32_call l seed)).
  { unfold shuffled. apply v2_generate_names. lia. }
  set (pl := Spec.permute mulberry32_call l seed) in *.
  assert (Hperm : pl ≡ₚ l) by apply spec_permute_perm.
  assert (Hlink : replace_char ","%char LF
                    (join "," (default ""%string <$> elems shuffled))
                  = join newline pl).
  { rewrite Hshuffled. unfold of_list. cbn [elems].
    rewrite <- list_fmap_compose, list_fmap_id.
    rewrite <- join_split_replace. fold newline. f_equal.
    apply (split_join ","%char).
    - intros Hnil. apply (f_equal length) in Hnil.
      rewrite Hperm in Hnil. cbn in Hnil. lia.
    - by rewrite Hperm. }
  rewrite Hlink.
  set (q := Page (join newline pl) (pretty seed) (trim (col_team_input p))
              (trim (row_team_input p)) (OutputSection [] true)).
  assert (Hparsed : parseNames (names_input q) = shuffled).
  { cbn [q names_input]. rewrite Hshuffled. apply parseNames_of_join.
    by rewrite Hperm. }
  assert (Hseed' : parseInt (seed_input q) = Some seed).
  { cbn [q seed_input]. rewrite <- (append_nil_r (pretty seed)).
    by apply (parseInt_pretty seed ""%string ""%string). }
  assert (Hlen' : (1 ≤ len (parseNames (names_input q)) ≤ 100)%Z).
  { rewrite Hparsed, Hshuffled. unfold len, of_list. cbn [elems].
    rewrite length_fmap, Hperm. lia. }
  destruct (v2_submit_inputs q) as (Hn & Hs & _).
  destruct (v2_submit_accepted q seed Hlen' Hseed') as (_ & Htable & _).
  unfold accepted. rewrite Hn, Hs. split; [done|]. split.
  { rewrite Hshuffled. unfold of_list. cbn [elems]. by rewrite Hperm. }
  split; [split; [done | by eexists]|].
  rewrite Htable, Hparsed. cbn [q col_team_input row_team_input].
  by rewrite !trim_idemp.
Qed.

Lemma share_link_names_witness :
  let p := entered ["Ann"; "Bob"; "Cy"]%string "1" in
  let shuffled := (AppV2.generate (parseNames (names_input p)) 1).1 in
  parseNames (names_input (reopened p)) = shuffled
  ∧ elems shuffled ≡ₚ elems (parseNames (names_input p))
  ∧ accepted (reopened p)
  ∧ AppV2.grid_table (reopened p)
    = Some (AppV2.buildTable (AppV2.assign shuffled 1)
              (trim (col_team_input p)) (trim (row_team_input p))).
Proof.
  apply (share_link_names (entered ["Ann"; "Bob"; "Cy"]%string "1") 1).
  - split; [by vm_compute | by eexists].
  - reflexivity.
  - simpl. lia.
  - repeat constructor; by eexists.
Defined.


(** ** What the shuffle never does *)

Lemma set_length {A} (array : jsarray A) j v :
  (length (elems array) ≤ length (elems (set array j v)))%nat.
Proof.
  unfold set. destruct (is_index j); [|done].
  destruct (j <? len array)%Z; cbn [elems].
  - by rewrite length_insert.
  - rewrite length_app. lia.
Qed.

Lemma swap_length {A} (array : jsarray A) i j :
  (length (elems array) ≤ length (elems (swap array i j)))%nat.
Proof. unfold swap. etrans; apply set_length. Qed.

(** X4. Whatever the generator returns, [shuffleArray] never makes the array
    shorter. *)
Theorem shuffleArray_never_shrinks {A G : Type} (rng : G → Q * G)
    (array : jsarray A) (g : G) :
  (length (elems array) ≤ length (elems (shuffleArray rng array g).1))%nat.
Proof.
  unfold shuffleArray. generalize (length (elems array) - 1)%nat as i.
  intros i. revert array g. induction i as [|i IH]; intros array g; [done|].
  cbn [shuffle_from]. destruct (rng g) as [x g'].
  etrans; [|apply IH]. apply swap_length.
Qed.

(** ** The names that the grid shows *)

Lemma elem_of_rounds {A} (x : A) q (l : list A) :
  (0 < q)%nat → x ∈ mjoin (replicate q l) ↔ x ∈ l.
Proof.
  intros Hq. induction q as [|q IH]; [lia|].
  simpl. rewrite elem_of_app. destruct q as [|q].
  - simpl. rewrite elem_of_nil. tauto.
  - rewrite IH by lia. tauto.
Qed.

Lemma elem_of_cycle {A} (v : option A) (l : list A) :
  (1 ≤ length l ≤ 100)%nat → v ∈ cycle l 100 ↔ v ∈ Some <$> l.
Proof.
  intros Hlen.
  pose proof (Nat.mod_upper_bound 100 (length l) ltac:(lia)) as Hr.
  pose proof (Nat.div_mod_eq 100 (length l)) as H100.
  rewrite Nat.mul_comm in H100.
  assert (Hq : (0 < 100 `div` length l)%nat).
  { apply Nat.div_str_pos. lia. }
  rewrite H100 at 1. rewrite cycle_rounds by lia.
  rewrite elem_of_app, elem_of_rounds by done.
  split; [|tauto]. intros [H|H]; [done|].
  apply list_elem_of_fmap in H as (y & -> & Hy).
  apply list_elem_of_fmap_2. by eapply subseteq_take.
Qed.

Lemma default_texts (l : list (option string)) (names : list string) :
  (∀ v, v ∈ l ↔ v ∈ Some <$> names) →
  ∀ x, x ∈ default ""%string <$> l ↔ x ∈ names.
Proof.
  intros Hl x. rewrite list_elem_of_fmap. split.
  - intros (v & -> & Hv). apply Hl, list_elem_of_fmap in Hv as (y & -> & Hy).
    done.
  - intros Hx. exists (Some x). split; [done|].
    apply Hl. by apply list_elem_of_fmap_2.
Qed.

(** X16. An accepted page shows a grid of 100 cells in which every cell shows
    one of the names parsed and every name parsed shows in some cell; in both
    revisions, and also with names entered twice. *)
Theorem grid_shows_names (p : page) (seed : Z) :
  accepted p → parseInt (seed_input p) = Some seed →
  (∃ table, AppV2.grid_table (AppV2.submit p).2 = Some table
     ∧ length (td_texts table) = 100%nat
     ∧ ∀ x, x ∈ td_texts table ↔ Some x ∈ elems (parseNames (names_input p)))
  ∧ (∃ table, children (grid_output (AppV1.submit p).2) !! 1%nat = Some table
     ∧ length (td_texts table) = 100%nat
     ∧ ∀ x, x ∈ td_texts table ↔ Some x ∈ elems (parseNames (names_input p))).
Proof.
  intros [Hlen _] Hseed.
  destruct (v2_submit_accepted p seed Hlen Hseed) as (_ & Ht2 & _).
  destruct (v1_submit_accepted p seed Hlen Hseed) as (_ & Ht1 & _).
  unfold parseNames in *. set (l := filter _ _) in *.
  unfold len, of_list in Hlen. cbn [elems] in Hlen. rewrite length_fmap in Hlen.
  assert (Hin : ∀ x, Some x ∈ elems (of_list l) ↔ x ∈ l).
  { intros x. unfold of_list. cbn [elems]. apply list_elem_of_fmap_inj. apply _. }
  split.
  - eexists. split; [exact Ht2|].
    destruct (v2_table_cells (AppV2.assign (of_list l) seed)
                (trim (col_team_input p)) (trim (row_team_input p))) as [-> _].
    rewrite squares_by_index by apply v2_assign_length.
    rewrite length_fmap, v2_assign_length. split; [done|].
    intros x. rewrite Hin. apply default_texts. intros v.
    rewrite v2_assign by lia. cbn [elems]. unfold Spec.assign.
    rewrite cyclic_fill_cycle, elem_of_cycle
      by (rewrite spec_permute_length; lia).
    by rewrite spec_permute_perm.
  - eexists. split; [exact Ht1|].
    destruct (v1_table_cells (AppV1.generate (of_list l) seed)
                (trim (col_team_input p)) (trim (row_team_input p))) as [-> _].
    rewrite squares_by_index by apply v1_generate_length.
    rewrite length_fmap, v1_generate_length. split; [done|].
    intros x. rewrite Hin. apply default_texts. intros v.
    rewrite v1_generate_names by lia. cbn [elems].
    rewrite spec_permute_perm, cyclic_fill_cycle.
    apply elem_of_cycle. lia.
Qed.

Lemma grid_shows_names_witness :
  let p := entered ["Ann"; "Bob"; "Ann"]%string "5" in
  (∃ table, AppV2.grid_table (AppV2.submit p).2 = Some table
     ∧ length (td_texts table) = 100%nat
     ∧ ∀ x, x ∈ td_texts table ↔ Some x ∈ elems (parseNames (names_input p)))
  ∧ (∃ table, children (grid_output (AppV1.submit p).2) !! 1%nat = Some table
     ∧ length (td_texts table) = 100%nat
     ∧ ∀ x, x ∈ td_texts table ↔ Some x ∈ elems (parseNames (names_input p))).
Proof.
  apply (grid_shows_names (entered ["Ann"; "Bob"; "Ann"]%string "5") 5).
  - split; [by vm_compute | by eexists].
  - reflexivity.
Defined.
